(** * Twitch-Needle: the chat counter and its web server (server.py)

    A shallow embedding of [server.py]: the module-level start-up checks,
    the global [counter], the chat handler [TwitchBot.event_message], the
    Flask handlers [stream], [index], [reset_counter] and [shutdown] with
    the routes they are registered under, and [main]; and, of the page that
    [index] serves, the line of its script that turns the counter into the
    angle of the needle.

    Python values are modelled as follows.
    - [int] is [Z] (unbounded, as in Python).
    - [str] is a list of Unicode code points, each an [N].
    - the process-wide global [counter] is the field of a record [World]
      that every handler receives and returns.
    - the generator [event_stream] is a small machine whose program counter
      says at which line it will read the global next.
    - the functions of the Python runtime and of Flask that the module calls
      and whose tables are not part of this repository ([str.lower], [int],
      [render_template_string], [certifi.where]) are the fields of a class
      [Runtime]; what a proof needs to know of them is a hypothesis of its
      theorem.

    The script of the page runs in the browser. Its values are JavaScript
    Numbers, modelled as the binary64 values of [SpecFloat] with the
    operations of that library; [Math.tanh], which ECMAScript does not
    define bit for bit, is an argument of the model. *)

From Stdlib Require Import ZArith NArith Ascii String List Bool Lia SpecFloat.
From stdpp Require Import base tactics option list gmap strings pretty.

Local Open Scope Z_scope.

(** ** Python strings *)

(** A Python [str]: a sequence of code points. *)
Abbreviation str := (list N).

(** The code points of an ASCII literal of the source. *)
Definition lit (s : string) : str :=
  (λ a, N_of_ascii a) <$> list_ascii_of_string s.

(** The double quote and the line feed, which the literals below need. *)
Definition dquote : str := [34%N].
Definition newline : str := [10%N].

(** [str(n)] for an [int]: its decimal digits, with a leading minus sign. *)
Definition str_of_int (n : Z) : str := lit (pretty n).

(** The code points for which [str.isspace] holds; [str.strip] with no
    argument removes exactly these (CPython's [_PyUnicode_IsWhitespace]). *)
Definition whitespace : list N :=
  [9; 10; 11; 12; 13; 28; 29; 30; 31; 32; 133; 160; 5760;
   8192; 8193; 8194; 8195; 8196; 8197; 8198; 8199; 8200; 8201; 8202;
   8232; 8233; 8239; 8287; 12288]%N.

Definition isspace (c : N) : bool := bool_decide (c ∈ whitespace).

Fixpoint lstrip (s : str) : str :=
  match s with
  | c :: s' => if isspace c then lstrip s' else s
  | [] => []
  end.

Definition rstrip (s : str) : str := reverse (lstrip (reverse s)).

(** [s.strip()] *)
Definition strip (s : str) : str := rstrip (lstrip s).

(** [s.startswith(p)] *)
Fixpoint startswith (p s : str) : bool :=
  match p, s with
  | [], _ => true
  | _ :: _, [] => false
  | a :: p', b :: s' => (a =? b)%N && startswith p' s'
  end.

(** [p in s] for two strings: [p] occurs in [s] as a contiguous run. *)
Fixpoint contains (p s : str) : bool :=
  startswith p s ||
  match s with
  | [] => false
  | _ :: s' => contains p s'
  end.

(** What [p in s] means: [s] splits around an occurrence of [p]. *)
Definition substring (p s : str) : Prop := ∃ a b, s = a ++ p ++ b.

(** [str.lower] on the ASCII range: the letters A to Z move down by 32. *)
Definition ascii_lower (c : N) : N :=
  if (65 <=? c)%N && (c <=? 90)%N then (c + 32)%N else c.

Definition is_ascii (c : N) : Prop := (c < 128)%N.

(** ** The counter store *)

(** Line 31: the global [counter], the only shared state of the process. *)
Record World := { counter : Z }.

(** [counter = 0] as the module is loaded. *)
Definition boot : World := {| counter := 0 |}.

(** Python's [sum] over a list of [int]. *)
Definition sum_of (ds : list Z) : Z := foldr Z.add 0 ds.

(** ** The page served at the root path *)

(** Lines 52-163: the lines of the literal [html] of [index], each cut at
    its double quotes (the pieces of a line are joined by a double quote). *)
Definition html_source : list (list string) := [
  ["    <!DOCTYPE html>"];
  ["    <html lang="; "en"; ">"];
  ["    <head>"];
  ["      <meta charset="; "UTF-8"; ">"];
  ["      <title>Counter Display</title>"];
  ["      <style>"];
  ["        body {"];
  ["          background-color: #FFFFFF;"];
  ["          display: flex;"];
  ["          flex-direction: column;"];
  ["          align-items: center;"];
  ["        }"];
  ["        .gauge-container {"];
  ["          position: relative;"];
  ["          width: 400px;"];
  ["          height: 200px;"];
  ["          margin: 20px;"];
  ["        }"];
  ["        #gauge {"];
  ["          position: absolute;"];
  ["          width: 100%;"];
  ["          height: 100%;"];
  ["          z-index: 1;"];
  ["          transform: scale(0.9);"];
  ["        }"];
  ["        #needle {"];
  ["          position: absolute;"];
  ["          width: 100%;"];
  ["          height: 100%;"];
  ["          z-index: 2;"];
  ["          transform-origin: bottom center;"];
  ["          transition: transform 0.3s ease;"];
  ["        }"];
  ["        #counter {"];
  ["          font-size: 64px;"];
  ["          font-weight: bold;"];
  ["          position: absolute;"];
  ["          left: 50%;"];
  ["          top: 40%;"];
  ["          transform: translate(-50%, -50%);"];
  ["          z-index: 3;"];
  ["          color: #000000;"];
  ["          font-family: Arial, Helvetica, sans-serif;"];
  ["        }"];
  ["        #reset-button {"];
  ["          margin-top: 20px;"];
  ["          padding: 10px 20px;"];
  ["          background: #ffffff;"];
  ["          color: #000000;"];
  ["          border: 2px solid #333;"];
  ["          border-radius: 5px;"];
  ["          cursor: pointer;"];
  ["          font-size: 14px;"];
  ["        }"];
  ["        .instructions {"];
  ["          font-size: 12px;"];
  ["          color: #333;"];
  ["          margin: 10px 0;"];
  ["          background: white;"];
  ["          padding: 5px;"];
  ["        }"];
  ["      </style>"];
  ["    </head>"];
  ["    <body>"];
  ["      <div class="; "gauge-container"; ">"];
  ["        <div id="; "counter"; ">0</div>"];
  ["        <img id="; "gauge"; " src="; "/static/images/Gauge.svg"; " alt="; "speed gauge"; ">"];
  ["        <img id="; "needle"; " src="; "/static/images/Needle.svg"; " alt="; "needle indicator"; ">"];
  ["      </div>"];
  ["      <div class="; "instructions"; ">Click button below to reset counter</div>"];
  ["      <button id="; "reset-button"; " onclick="; "handleReset()"; ">Reset Counter</button>"];
  ["      <button id="; "shutdown-button"; " onclick="; "handleShutdown()"; " style="; "margin-top: 10px; padding: 10px 20px; background: #ff4444; color: white; border: 2px solid #cc0000; border-radius: 5px; cursor: pointer; font-size: 14px;"; ">Shutdown Server</button>"];
  ["      <script>"];
  ["        async function handleShutdown() {"];
  ["          if (confirm('Are you sure you want to shutdown the server?')) {"];
  ["            try {"];
  ["              await fetch('/shutdown', { method: 'POST' });"];
  ["              alert('Server is shutting down...');"];
  ["            } catch (error) {"];
  ["              console.error('Error:', error);"];
  ["            }"];
  ["          }"];
  ["        }"];
  [""];
  ["        async function handleReset() {"];
  ["          try {"];
  ["            const response = await fetch('/reset', { method: 'POST' });"];
  ["            if (!response.ok) throw new Error('Reset failed');"];
  ["            document.getElementById('counter').innerText = '0';"];
  ["            document.getElementById('needle').style.transform = 'rotate(0deg)';"];
  ["          } catch (error) {"];
  ["            console.error('Error:', error);"];
  ["          }"];
  ["        }"];
  [""];
  ["        const evtSource = new EventSource("; "/stream"; ");"];
  ["        evtSource.onmessage = function(event) {"];
  ["          try {"];
  ["            const data = JSON.parse(event.data);"];
  ["            const angle = Math.tanh(data.counter / 500) * 90;"];
  ["            document.getElementById('needle').style.transform = `rotate(${angle}deg)`;"];
  ["            document.getElementById("; "counter"; ").innerText = data.counter;"];
  ["          } catch (e) {"];
  ["            console.error("; "Error parsing message:"; ", e);"];
  ["          }"];
  ["        };"];
  ["        evtSource.onerror = function(error) {"];
  ["          console.error("; "EventSource error:"; ", error);"];
  ["        };"];
  ["      </script>"];
  ["    </body>"];
  ["    </html>"]
].

(** A line of [html_source] as text. *)
Fixpoint quoted (pieces : list string) : str :=
  match pieces with
  | [] => []
  | [p] => lit p
  | p :: ps => lit p ++ dquote ++ quoted ps
  end.

(** Lines 51-164: the literal [html]. It opens with a line feed, every line
    of [html_source] ends with one, and four blanks stand before the closing
    quotes. *)
Definition html : str :=
  newline ++ mjoin ((λ l, quoted l ++ newline) <$> html_source) ++ lit "    ".

(** ** The runtime the module runs on *)

(** The exceptions the module can raise. *)
Inductive exn := ValueError (msg : str).

(** What the module calls and does not define. *)
Class Runtime := {
  (** [str.lower]: the Unicode lower-case mapping, which is context
      sensitive and so a function of the whole string. *)
  str_lower : str → str;
  (** [int(s)] for a [str]: the number, or the [ValueError] it raises. *)
  py_int : str → exn + Z;
  (** Flask's [render_template_string] with no context variables. *)
  render_template_string : str → str;
  (** [certifi.where()]: the path of the certificate bundle. *)
  certifi_where : str;
}.

(** On ASCII text [str.lower] is the ASCII mapping. *)
Definition lower_on_ascii `{Runtime} : Prop :=
  ∀ s, Forall is_ascii s → str_lower s = ascii_lower <$> s.

(** [int] reads the default port literal of line 23. *)
Definition int_reads_default_port `{Runtime} : Prop :=
  py_int (lit "8080") = inr 8080.

(** Jinja renders a template with no tag, no carriage return and no final
    line feed as the text it is: [{{], [{%] and [{#] open its tags, it
    rewrites line ends to a line feed and drops one at the end. *)
Definition renders_plain_text `{Runtime} : Prop :=
  ∀ t : str,
    contains (lit "{{") t = false →
    contains (lit "{%") t = false →
    contains (lit "{#") t = false →
    13%N ∉ t → last t ≠ Some 10%N →
    render_template_string t = t.

Section Server.
Context `{Runtime}.

(** ** The chat listener *)

(** Line 173: [content = message.content.strip().lower()]. *)
Definition normalize (content : str) : str := str_lower (strip content).

(** Lines 171-177: [TwitchBot.event_message], on the content of the message
    and the global it updates. *)
Definition event_message (message_content : str) (w : World) : World :=
  let content := normalize message_content in
  if contains (lit "+2") content then
    {| counter := counter w + 2 |}
  else if contains (lit "-2") content then
    {| counter := counter w - 2 |}
  else w.

(** The chat listener handling a sequence of messages, oldest first. *)
Definition chat (msgs : list str) (w : World) : World :=
  foldl (λ w m, event_message m w) w msgs.

(** The delta the parsing rule of section 4.2 applies for a message: +2 when
    the normalized text has "+2" in it, else -2 when it has "-2" in it, and
    nothing otherwise. *)
Inductive applied_delta (msg : str) : Z → Prop :=
  | delta_plus :
      substring (lit "+2") (normalize msg) → applied_delta msg 2
  | delta_minus :
      ¬ substring (lit "+2") (normalize msg) →
      substring (lit "-2") (normalize msg) → applied_delta msg (-2)
  | delta_none :
      ¬ substring (lit "+2") (normalize msg) →
      ¬ substring (lit "-2") (normalize msg) → applied_delta msg 0.

(** ** Start-up (lines 17-25) and [main] (lines 180-187) *)

(** [load_dotenv()]: the variables of the [.env] file are added to the
    environment; one that is already set keeps its value. *)
Definition load_dotenv (dotenv environ : gmap string str) : gmap string str :=
  environ ∪ dotenv.

(** [not v] for what [os.getenv] returned: [None] and the empty string are
    false values. *)
Definition falsy (v : option str) : bool :=
  match v with
  | None | Some [] => true
  | Some (_ :: _) => false
  end.

(** The three module-level settings. *)
Record Settings := {
  TWITCH_CHANNEL : str;
  TWITCH_TOKEN : str;
  PORT : Z;
}.

(** The message of line 25. *)
Definition missing_settings : str :=
  lit "Please ensure TWITCH_CHANNEL and TWITCH_TOKEN are set in your .env file.".

(** Lines 17 and 20: what [os.getenv] reads from, given the environment of
    the process and the contents of the [.env] file. *)
Definition environment (os_environ dotenv : gmap string str)
  : gmap string str :=
  load_dotenv dotenv (<["SSL_CERT_FILE" := certifi_where]> os_environ).

(** Lines 17-25, from the environment of the process and the contents of
    the [.env] file: the settings, or the exception that ends the import. *)
Definition startup (os_environ dotenv : gmap string str) : exn + Settings :=
  let environ := environment os_environ dotenv in
  let channel := environ !! "TWITCH_CHANNEL" in
  let token := environ !! "TWITCH_TOKEN" in
  match py_int (default (lit "8080") (environ !! "PORT")) with
  | inl e => inl e
  | inr port =>
      if falsy channel || falsy token then inl (ValueError missing_settings)
      else inr {| TWITCH_CHANNEL := default [] channel;
                  TWITCH_TOKEN := default [] token;
                  PORT := port |}
  end.

(** The two tasks [main] hands to [asyncio.gather]. *)
Inductive task :=
  | BotStart (token : str) (initial_channels : list str)
  | Serve (bind : list str).

(** Lines 180-187. *)
Definition main (cfg : Settings) : list task :=
  [ BotStart (TWITCH_TOKEN cfg) [TWITCH_CHANNEL cfg];
    Serve [lit "0.0.0.0:" ++ str_of_int (PORT cfg)] ].

(** The script as a whole: the module-level code, then line 202. The tasks
    that were started, or the exception raised before any was. *)
Definition program (os_environ dotenv : gmap string str) : exn + list task :=
  match startup os_environ dotenv with
  | inl e => inl e
  | inr cfg => inr (main cfg)
  end.

(** ** The web handlers *)

(** What a Flask view returns: a body and a status code. *)
Record Response := { body : str; status : Z }.

(** Lines 190-194: [reset_counter]. *)
Definition reset_counter (w : World) : World * Response :=
  ({| counter := 0 |}, {| body := []; status := 204 |}).

(** Lines 49-165: [index]. *)
Definition index (w : World) : World * Response :=
  (w, {| body := render_template_string html; status := 200 |}).

(** ** The stream endpoint (lines 34-46) *)

(** Line 42: [json.dumps({"counter": counter})]. *)
Definition json_dumps_counter (n : Z) : str :=
  lit "{" ++ dquote ++ lit "counter" ++ dquote ++ lit ": " ++
  str_of_int n ++ lit "}".

(** Line 43: the frame [f"data: {data}\n\n"]. *)
Definition frame (n : Z) : str :=
  lit "data: " ++ json_dumps_counter n ++ newline ++ newline.

(** The lines of [event_stream] that read the global [counter]. The
    generator is suspended at the [yield] of line 43 between [Line42] and
    [Line44], and asleep (line 45) before each [Line41]. *)
Inductive Line := Line41 | Line42 | Line44.

(** The generator object: the line it executes next and its local
    [last_value]. *)
Record Generator := { pc : Line; last_value : option Z }.

(** Line 46, [event_stream()]: a generator that has not run yet. *)
Definition event_stream : Generator := {| pc := Line41; last_value := None |}.

(** The generator executes its next line in world [w]: the line reads the
    global as it is now. Line 42-43 yields a frame. *)
Definition advance (w : World) (g : Generator) : Generator * option str :=
  match pc g with
  | Line41 =>
      if bool_decide (Some (counter w) ≠ last_value g)
      then ({| pc := Line42; last_value := last_value g |}, None)
      else (g, None)
  | Line42 =>
      ({| pc := Line44; last_value := last_value g |}, Some (frame (counter w)))
  | Line44 =>
      ({| pc := Line41; last_value := Some (counter w) |}, None)
  end.

(** One pass of the [while] loop during which nothing else writes the
    global: line 41 and, when the value is new, lines 42-44. *)
Definition poll (w : World) (g : Generator) : Generator * list str :=
  let '(g1, _) := advance w g in
  match pc g1 with
  | Line41 => (g1, [])
  | _ =>
      let '(g2, out) := advance w g1 in
      let '(g3, _) := advance w g2 in
      (g3, option_list out)
  end.

(** The frames a subscriber is sent when its passes of the loop observe the
    values [observed], one value per pass. *)
Fixpoint observe (observed : list Z) (g : Generator) : list str :=
  match observed with
  | [] => []
  | c :: rest =>
      let '(g', out) := poll {| counter := c |} g in
      out ++ observe rest g'
  end.

(** The values a subscriber should be sent for the values it observes: each
    one that differs from the value sent last. *)
Fixpoint transitions (sent_last : option Z) (observed : list Z) : list Z :=
  match observed with
  | [] => []
  | c :: rest =>
      if bool_decide (Some c = sent_last) then transitions sent_last rest
      else c :: transitions (Some c) rest
  end.

(** ** The process: the chat task, the web handlers and one subscriber *)

(** What can happen next in the process. *)
Inductive event :=
  | ChatMessage (content : str)
  | ResetRequest
  | SubscriberRuns.

(** The global, one subscriber's generator, and the frames it was sent
    (the oldest first). *)
Record Process := {
  world : World;
  subscriber : Generator;
  sent : list str;
}.

(** A subscriber connects to a process whose global is [w]. *)
Definition connect (w : World) : Process :=
  {| world := w; subscriber := event_stream; sent := [] |}.

Definition handle (p : Process) (e : event) : Process :=
  match e with
  | ChatMessage content =>
      {| world := event_message content (world p);
         subscriber := subscriber p; sent := sent p |}
  | ResetRequest =>
      {| world := (reset_counter (world p)).1;
         subscriber := subscriber p; sent := sent p |}
  | SubscriberRuns =>
      let '(g, out) := advance (world p) (subscriber p) in
      {| world := world p; subscriber := g;
         sent := sent p ++ option_list out |}
  end.

Definition run (es : list event) (p : Process) : Process := foldl handle p es.

(** The worlds the chat handler and the reset handler can produce from the
    world the module starts in. *)
Inductive reachable : World → Prop :=
  | reach_boot : reachable boot
  | reach_message w content :
      reachable w → reachable (event_message content w)
  | reach_reset w :
      reachable w → reachable (reset_counter w).1.

End Server.

(** ** A runtime to evaluate the model with *)

(** One code point of [repr(s)], inside the quote [quote]: the backslash,
    the quote and the control characters are escaped. *)
Definition hex_digit (n : N) : N :=
  if (n <? 10)%N then (48 + n)%N else (87 + n)%N.

Definition repr_char (quote c : N) : str :=
  if (c =? 92)%N then [92; 92]%N
  else if (c =? quote)%N then [92; c]%N
  else if (c =? 9)%N then lit "\t"
  else if (c =? 10)%N then lit "\n"
  else if (c =? 13)%N then lit "\r"
  else if (c <? 32)%N || (c =? 127)%N
       then [92; 120; hex_digit (c `div` 16); hex_digit (c `mod` 16)]%N
  else [c].

(** [repr(s)] for ASCII text: in single quotes, or in double quotes when
    the text has a single quote in it and no double quote. *)
Definition repr (s : str) : str :=
  let quote :=
    if bool_decide (39%N ∈ s) && negb (bool_decide (34%N ∈ s))
    then 34%N else 39%N in
  [quote] ++ mjoin (repr_char quote <$> s) ++ [quote].

Definition is_digit (c : N) : bool := (48 <=? c)%N && (c <=? 57)%N.

(** The value of a run of digits in which single underscores may stand
    between two digits. *)
Fixpoint digits_value (acc : Z) (s : str) : option Z :=
  match s with
  | [] => Some acc
  | c :: s' =>
      if is_digit c then digits_value (10 * acc + (Z.of_N c - 48)) s'
      else if (c =? 95)%N then
        match s' with
        | c' :: _ => if is_digit c' then digits_value acc s' else None
        | [] => None
        end
      else None
  end.

(** [int(s)] for ASCII text, as CPython reads a decimal literal: white space
    around it is dropped, a sign may come first, then digits, with single
    underscores allowed between digits; anything else raises the
    [ValueError] that quotes the text. (CPython's optional cap on the number
    of digits is left out.) *)
Definition decimal_int (s : str) : exn + Z :=
  let refuse :=
    inl (ValueError
           (lit "invalid literal for int() with base 10: " ++ repr s)) in
  let t := strip s in
  let '(negative, digits) :=
    match t with
    | 45%N :: t' => (true, t')
    | 43%N :: t' => (false, t')
    | _ => (false, t)
    end in
  match digits with
  | c :: _ =>
      if is_digit c then
        match digits_value 0 digits with
        | Some n => inr (if negative then - n else n)
        | None => refuse
        end
      else refuse
  | [] => refuse
  end.

(** The runtime restricted to ASCII text: [str.lower] moves the letters A to
    Z, [int] reads a decimal literal, and a template without tags is
    rendered as it is. *)
Definition ascii_runtime : Runtime := {|
  str_lower := fmap ascii_lower;
  py_int := decimal_int;
  render_template_string := id;
  certifi_where := lit "cacert.pem";
|}.

(** ** The routes and [shutdown] *)

(** The view functions of the module. *)
Inductive view := ViewStream | ViewIndex | ViewResetCounter | ViewShutdown.

(** What a decorator [@app.route] registers: the path, the methods and the
    view. *)
Record Rule := { rule : str; methods : list str; endpoint : view }.

(** Lines 34, 49, 190 and 197. A route given no [methods] answers GET. *)
Definition url_map : list Rule := [
  {| rule := lit "/stream"; methods := [lit "GET"]; endpoint := ViewStream |};
  {| rule := lit "/"; methods := [lit "GET"]; endpoint := ViewIndex |};
  {| rule := lit "/reset"; methods := [lit "POST"];
     endpoint := ViewResetCounter |};
  {| rule := lit "/shutdown"; methods := [lit "POST"];
     endpoint := ViewShutdown |}
].

(** A rule serves a request when the path is the rule's and the method is
    one of its methods; a rule for GET serves HEAD too. *)
Definition serves (r : Rule) (method path : str) : bool :=
  bool_decide (rule r = path) &&
  (bool_decide (method ∈ methods r) ||
   bool_decide (method = lit "HEAD") && bool_decide (lit "GET" ∈ methods r)).

(** The view Flask calls for a request, if it calls one: for a path or a
    method that no rule serves it answers by itself (404, 405, a redirect,
    the automatic OPTIONS answer) and no view of the module runs. *)
Fixpoint match_request (rules : list Rule) (method path : str)
  : option view :=
  match rules with
  | [] => None
  | r :: rules' =>
      if serves r method path then Some (endpoint r)
      else match_request rules' method path
  end.

(** How a request ends. *)
Inductive outcome :=
  | Answered (w : World) (r : Response)
  | Streaming (w : World) (g : Generator)
  | Exited (code : Z)
  | NoView.

(** The world a request leaves behind, while there is a process. *)
Definition world_after (o : outcome) (before : World) : option World :=
  match o with
  | Answered w _ | Streaming w _ => Some w
  | Exited _ => None
  | NoView => Some before
  end.

(** Lines 35-46: [stream] wraps a fresh generator in a response. *)
Definition stream (w : World) : outcome := Streaming w event_stream.

(** Lines 197-199: [shutdown] ends the process with [os._exit(0)]. *)
Definition shutdown (w : World) : outcome := Exited 0.

Section Routes.
Context `{Runtime}.

(** A request, handled in world [w]. *)
Definition dispatch_request (method path : str) (w : World) : outcome :=
  match match_request url_map method path with
  | Some ViewStream => stream w
  | Some ViewIndex => let '(w', r) := index w in Answered w' r
  | Some ViewResetCounter => let '(w', r) := reset_counter w in Answered w' r
  | Some ViewShutdown => shutdown w
  | None => NoView
  end.

End Routes.

(** The printable code points of ASCII: from the blank to the tilde. *)
Definition printable (c : N) : Prop := (32 ≤ c < 127)%N.

(** ** The gauge script of the page (line 151) *)

(** The page does not only show the counter: its script turns every frame of
    the stream into the angle of the needle,
    [const angle = Math.tanh(data.counter / 500) * 90;].
    That line runs in the browser, on JavaScript Numbers. *)

(** A JavaScript Number: an IEEE-754 binary64 value. *)
Abbreviation number := spec_float.

(** [data.counter] after [JSON.parse]: the Number nearest to the integer that
    [json.dumps] wrote, ties to even. (ECMAScript lets an engine drop the
    digits after the twentieth; the engines in use round correctly, which is
    what is modelled.) The literals [500] and [90] are read the same way. *)
Definition number_of_int (n : Z) : number :=
  binary_normalize 53 1024 n 0 false.

(** The operators [/] and [*] on Numbers. *)
Definition number_div : number → number → number := SFdiv 53 1024.
Definition number_mul : number → number → number := SFmul 53 1024.

(** Line 151. ECMAScript leaves the value of [Math.tanh] to the engine
    ("implementation-approximated"), so the function is an argument. *)
Definition angle (tanh : number → number) (counter : Z) : number :=
  number_mul (tanh (number_div (number_of_int counter) (number_of_int 500)))
             (number_of_int 90).

(** The argument of [Math.tanh] on line 151. *)
Definition scaled (counter : Z) : number :=
  number_div (number_of_int counter) (number_of_int 500).

(** A Number that is a binary64 value: the mantissa has at most 53 digits
    and the exponent is the one the format gives it. *)
Definition valid (x : number) : Prop := valid_binary 53 1024 x = true.

(** What the theorems below ask of an engine's [Math.tanh]: it keeps [+0],
    is odd and monotone, stays below 1, and is 1 at 20 (the real
    [tanh 20] is within [1e-17] of 1, far less than half the gap between 1
    and the Number below it). *)
Record tanh_like (tanh : number → number) : Prop := {
  tanh_zero : tanh (S754_zero false) = S754_zero false;
  tanh_odd : ∀ x, tanh (SFopp x) = SFopp (tanh x);
  tanh_mono : ∀ x y,
    valid x → valid y → SFleb x y = true → SFleb (tanh x) (tanh y) = true;
  tanh_range : ∀ x,
    valid x → x ≠ S754_nan →
    valid (tanh x) ∧ SFleb (tanh x) (number_of_int 1) = true;
  tanh_saturates : tanh (number_of_int 20) = number_of_int 1;
}.

(** A function with these properties to evaluate the model with: the
    identity cut off at [-1] and [1]. *)
Definition clamp (x : number) : number :=
  if SFleb (number_of_int 1) x then number_of_int 1
  else if SFleb x (number_of_int (-1)) then number_of_int (-1)
  else x.

(** *** Vocabulary of the rounding proofs *)

(** The cell of the quotient [A / B]: its integer part, whether it is in the
    upper half of the cell, and whether it is off the middle and the ends. *)
Definition cls (A B : Z) : shr_record :=
  {| shr_m := A `div` B;
     shr_r := B <=? 2 * (A `mod` B);
     shr_s := negb ((A `mod` B =? 0) || (2 * (A `mod` B) =? B)) |}.

(** [A / B] rounded to the nearest integer, ties to even. *)
Definition rne (A B : Z) : Z :=
  round_nearest_even (shr_m (cls A B)) (loc_of_shr_record (cls A B)).

(** The Number with sign [s] for the rounded mantissa [Q] at exponent [E]. *)
Definition pack (s : bool) (Q E : Z) : number :=
  if Q =? 0 then S754_zero s
  else if Q <? 2 ^ 53 then
    if E <=? 971 then S754_finite s (Z.to_pos Q) E else S754_infinity s
  else
    if E + 1 <=? 971 then S754_finite s (Z.to_pos (2 ^ 52)) (E + 1)
    else S754_infinity s.

(** [binary_round_aux] on the cell of [A / B] at exponent [e]: the rounding
    of the real [A / B * 2 ^ e]. *)
Definition round_pos (s : bool) (A B e : Z) : number :=
  binary_round_aux 53 1024 s (A `div` B) e (loc_of_shr_record (cls A B)).

(** The shift that [binary_round_aux] applies to the cell of [A / B] at
    exponent [e]. *)
Definition shift_of (A B e : Z) : Z :=
  fexp 53 1024 (Zdigits2 (A `div` B) + e) - e.

(** The real [A1 / B1 * 2 ^ e1] is at most [A2 / B2 * 2 ^ e2]. *)
Definition rle (A1 B1 e1 A2 B2 e2 : Z) : Prop :=
  A1 * B2 * 2 ^ (e1 - Z.min e1 e2) ≤ A2 * B1 * 2 ^ (e2 - Z.min e1 e2).

(** Zero, or above it. *)
Definition nonneg (x : number) : Prop :=
  match x with
  | S754_zero _ | S754_finite false _ _ | S754_infinity false => True
  | _ => False
  end.

(** Above zero. *)
Definition positive_number (x : number) : Prop :=
  match x with
  | S754_finite false _ _ | S754_infinity false => True
  | _ => False
  end.

(** At least 1 in absolute value, when finite. *)
Definition big (x : number) : Prop :=
  match x with
  | S754_finite _ m e => 1 ≤ Zdigits2 (Z.pos m) + e
  | _ => True
  end.

(** A property of the mantissa and exponent of the finite Numbers. *)
Definition within (dom : positive → Z → Prop) (x : number) : Prop :=
  match x with S754_finite _ m e => dom m e | _ => True end.

(** By how many digits the mantissa of an integer is shifted left to fill
    the 53 digits of a Number. *)
Definition int_shift (m : positive) : Z := Z.max (53 - Zdigits2 (Z.pos m)) 0.

(** * Properties *)

(** ** Strings *)

Lemma startswith_spec (p s : str) :
  startswith p s = true ↔ ∃ b, s = p ++ b.
Proof.
  revert s. induction p as [|a p IH]; intros s; simpl.
  - split; [intros _; by exists s|done].
  - destruct s as [|b s].
    + split; [done|]. intros [? ?]; discriminate.
    + rewrite andb_true_iff, N.eqb_eq, IH. split.
      * intros [-> [r ->]]. by exists r.
      * intros [r Hr]. injection Hr as -> ->. eauto.
Qed.

Lemma contains_spec (p s : str) :
  contains p s = true ↔ substring p s.
Proof.
  unfold substring. induction s as [|c s IH]; simpl.
  - rewrite orb_false_r, startswith_spec. split.
    + intros [b Hb]. by exists [], b.
    + intros (a & b & Hab). symmetry in Hab.
      apply app_eq_nil in Hab as [-> Hab]. eauto.
  - rewrite orb_true_iff, startswith_spec, IH. split.
    + intros [[b Hb]|(a & b & ->)].
      * by exists [], b.
      * by exists (c :: a), b.
    + intros ([|x a] & b & Hab); simpl in Hab.
      * left. eauto.
      * right. injection Hab as -> ->. eauto.
Qed.

Lemma not_contains_spec (p s : str) :
  contains p s = false ↔ ¬ substring p s.
Proof. rewrite <- contains_spec. by destruct (contains p s). Qed.

Lemma ascii_runtime_lower : @lower_on_ascii ascii_runtime.
Proof. by intros s _. Qed.

(** ** The chat listener *)

Section ChatListener.
Context `{Runtime}.

(** The handler adds the delta of the parsing rule, whichever it is. *)
Lemma event_message_applies (msg : str) (d : Z) (w : World) :
  applied_delta msg d → event_message msg w = {| counter := counter w + d |}.
Proof.
  unfold event_message; cbv zeta.
  intros [Hp|Hp Hm|Hp Hm].
  - apply contains_spec in Hp. by rewrite Hp.
  - apply not_contains_spec in Hp. apply contains_spec in Hm.
    by rewrite Hp, Hm.
  - apply not_contains_spec in Hp. apply not_contains_spec in Hm.
    rewrite Hp, Hm. destruct w as [c]; simpl. f_equal. lia.
Qed.

(** The parsing rule gives every message a delta. *)
Lemma applied_delta_total (msg : str) : ∃ d, applied_delta msg d.
Proof.
  destruct (contains (lit "+2") (normalize msg)) eqn:Hp.
  { exists 2. apply delta_plus. by apply contains_spec. }
  apply not_contains_spec in Hp.
  destruct (contains (lit "-2") (normalize msg)) eqn:Hm.
  - exists (-2). apply delta_minus; [done|]. by apply contains_spec.
  - exists 0. apply delta_none; [done|]. by apply not_contains_spec.
Qed.

Lemma chat_adds_deltas (msgs : list str) (ds : list Z) (w : World) :
  Forall2 applied_delta msgs ds →
  counter (chat msgs w) = counter w + sum_of ds.
Proof.
  intros Hd. revert w. unfold chat.
  induction Hd as [|msg d msgs ds Hmsg _ IH]; intros w; simpl.
  - lia.
  - rewrite IH, (event_message_applies msg d) by done. simpl. lia.
Qed.

(** C1. Handling any finite sequence of chat messages from counter 0 leaves
    the counter at the sum of the deltas the parsing rule applies to them
    (+2, -2 or 0 for each message), and every sequence of messages has such
    deltas; the messages "+2 nice", "-2 aw", "+2" leave it at 2. *)
Theorem chat_counter_is_sum_of_deltas :
  lower_on_ascii →
  (∀ msgs : list str, ∃ ds, Forall2 applied_delta msgs ds) ∧
  (∀ (msgs : list str) (ds : list Z),
     Forall2 applied_delta msgs ds → counter (chat msgs boot) = sum_of ds) ∧
  counter (chat [lit "+2 nice"; lit "-2 aw"; lit "+2"] boot) = 2.
Proof.
  intros Hlower. split; [|split].
  - induction msgs as [|msg msgs [ds IH]].
    + by exists [].
    + destruct (applied_delta_total msg) as [d Hd].
      exists (d :: ds). by constructor.
  - intros msgs ds Hd. by rewrite (chat_adds_deltas msgs ds).
  - unfold chat, event_message, normalize; simpl.
    rewrite !Hlower by (vm_compute; repeat constructor).
    reflexivity.
Qed.

(** C2. A message whose normalized content has both "+2" and "-2" in it
    adds exactly 2 to the counter. *)
Theorem plus_two_takes_priority (content : str) (w : World) :
  substring (lit "+2") (normalize content) →
  substring (lit "-2") (normalize content) →
  event_message content w = {| counter := counter w + 2 |}.
Proof.
  intros Hp _. apply event_message_applies. by apply delta_plus.
Qed.

(** C4. A message whose normalized content has neither "+2" nor "-2" in it
    leaves the shared state as it was. *)
Theorem unmatched_message_is_noop (content : str) (w : World) :
  ¬ substring (lit "+2") (normalize content) →
  ¬ substring (lit "-2") (normalize content) →
  event_message content w = w.
Proof.
  intros Hp Hm. unfold event_message; cbv zeta.
  apply not_contains_spec in Hp. apply not_contains_spec in Hm.
  by rewrite Hp, Hm.
Qed.

(** C10. In every world the chat handler and the reset handler can reach
    from start-up the counter is even. *)
Theorem reachable_counter_even (w : World) :
  reachable w → Z.Even (counter w).
Proof.
  induction 1 as [|w content _ [k IH]|w _ _]; simpl.
  - by exists 0.
  - destruct (applied_delta_total content) as [d Hd].
    rewrite (event_message_applies content d w Hd); simpl.
    destruct Hd; [exists (k + 1)|exists (k - 1)|exists k]; lia.
  - by exists 0.
Qed.

End ChatListener.

(** Substring goals over closed strings are settled by running the search. *)
Ltac by_search :=
  first [ apply contains_spec; vm_compute; reflexivity
        | apply not_contains_spec; vm_compute; reflexivity ].

Lemma chat_counter_is_sum_of_deltas_witness :
  counter (@chat ascii_runtime [lit "+2 nice"; lit "-2 aw"; lit "hi"] boot)
  = sum_of [2; -2; 0].
Proof.
  apply (proj1 (proj2
    (@chat_counter_is_sum_of_deltas ascii_runtime ascii_runtime_lower))).
  repeat (constructor;
    [ first [ apply delta_plus; by_search
            | apply delta_minus; by_search
            | apply delta_none; by_search ] | ]).
  constructor.
Defined.

Lemma plus_two_takes_priority_witness :
  @event_message ascii_runtime (lit " Nice +2 and -2 ") boot
  = {| counter := 0 + 2 |}.
Proof.
  apply (@plus_two_takes_priority ascii_runtime); by_search.
Defined.

Lemma unmatched_message_is_noop_witness :
  @event_message ascii_runtime (lit "hello chat 2 - 2") {| counter := 6 |}
  = {| counter := 6 |}.
Proof.
  apply (@unmatched_message_is_noop ascii_runtime); by_search.
Defined.

Lemma reachable_counter_even_witness :
  Z.Even (counter (reset_counter
    (@event_message ascii_runtime (lit "-2") boot)).1) ∧
  Z.Even (counter (@event_message ascii_runtime (lit "-2")
    (@event_message ascii_runtime (lit "-2") boot))).
Proof.
  split; apply (@reachable_counter_even ascii_runtime).
  - exact (reach_reset _ (reach_message _ _ reach_boot)).
  - exact (reach_message _ _ (reach_message _ _ reach_boot)).
Defined.

(** ** The reset handler *)

(** C3. Whatever the counter was, [reset_counter] leaves it at 0 and answers
    with status 204 and an empty body; a second reset changes nothing. *)
Theorem reset_counter_zeroes_and_is_idempotent (w : World) :
  counter (reset_counter w).1 = 0 ∧
  (reset_counter w).2 = {| body := []; status := 204 |} ∧
  reset_counter (reset_counter w).1 = reset_counter w.
Proof. by destruct w. Qed.

(** ** Start-up *)

Section Startup.
Context `{Runtime}.

Lemma falsy_spec (v : option str) : falsy v = true ↔ v = None ∨ v = Some [].
Proof. destruct v as [[|c s]|]; simpl; intuition congruence. Qed.

(** C7. When TWITCH_CHANNEL or TWITCH_TOKEN is missing (or empty) in the
    environment the module reads, the program ends with an exception and no
    task was started; unless [int] refused the port first, the exception
    is the [ValueError] that names the two variables. When PORT is not
    supplied the port is 8080, and the server is bound to it. *)
Theorem startup_needs_channel_and_token
    (os_environ dotenv : gmap string str) :
  int_reads_default_port →
  let environ := environment os_environ dotenv in
  (falsy (environ !! "TWITCH_CHANNEL") = true ∨
   falsy (environ !! "TWITCH_TOKEN") = true →
     (∃ e, program os_environ dotenv = inl e) ∧
     (∀ port, py_int (default (lit "8080") (environ !! "PORT")) = inr port →
        program os_environ dotenv = inl (ValueError missing_settings))) ∧
  (environ !! "PORT" = None →
     (∀ cfg, startup os_environ dotenv = inr cfg → PORT cfg = 8080) ∧
     (∀ channel token,
        environ !! "TWITCH_CHANNEL" = Some channel → channel ≠ [] →
        environ !! "TWITCH_TOKEN" = Some token → token ≠ [] →
        program os_environ dotenv =
          inr [BotStart token [channel]; Serve [lit "0.0.0.0:8080"]])).
Proof.
  intros Hint environ. unfold program, startup. fold environ.
  split.
  - intros Hmissing.
    assert (falsy (environ !! "TWITCH_CHANNEL")
            || falsy (environ !! "TWITCH_TOKEN") = true) as Hor.
    { apply orb_true_iff. exact Hmissing. }
    split.
    + destruct (py_int _) as [e|port]; [by exists e|].
      rewrite Hor. by eexists.
    + intros port ->. by rewrite Hor.
  - intros ->. simpl. rewrite Hint. split.
    + intros cfg. destruct (_ || _); [done|]. by intros [= <-].
    + intros channel token -> Hc -> Ht.
      destruct channel; [done|]. destruct token; [done|]. reflexivity.
Qed.

End Startup.

Lemma startup_needs_channel_and_token_witness :
  @program ascii_runtime {[ "TWITCH_TOKEN" := lit "oauth:abc" ]} ∅
  = inl (ValueError missing_settings).
Proof.
  refine (proj2 (proj1 (@startup_needs_channel_and_token ascii_runtime
    {[ "TWITCH_TOKEN" := lit "oauth:abc" ]} ∅ _) _) 8080 _).
  - reflexivity.
  - left. vm_compute. reflexivity.
  - vm_compute. reflexivity.
Defined.

(** ** The index page *)

(** C9. [index] answers with the same page whatever the counter is and leaves
    the world alone; the page is the literal [html], whose script is embedded
    and whose counter label reads 0. *)
Theorem index_is_independent_of_counter `{Runtime} :
  renders_plain_text →
  (∀ w1 w2, (index w1).2 = (index w2).2) ∧
  (∀ w, (index w).1 = w) ∧
  (∀ w, (index w).2 = {| body := html; status := 200 |}) ∧
  substring
    (lit "<div id=" ++ dquote ++ lit "counter" ++ dquote ++ lit ">0</div>")
    html ∧
  substring (lit "<script>") html.
Proof.
  intros Hplain. split_and!; try done; try by_search.
  intros w. unfold index; simpl. f_equal. apply Hplain.
  - by vm_compute.
  - by vm_compute.
  - by vm_compute.
  - apply (bool_decide_eq_false_1 (13%N ∈ html)). by vm_compute.
  - by vm_compute.
Qed.

Lemma index_is_independent_of_counter_witness :
  (@index ascii_runtime {| counter := 42 |}).2
  = {| body := html; status := 200 |}.
Proof.
  apply (@index_is_independent_of_counter ascii_runtime).
  by intros t _ _ _ _ _.
Defined.

(** ** The stream endpoint *)

(** A pass of the loop in which nothing else writes the global sends the
    value it reads when that value differs from [last_value], and then
    remembers it. *)
Lemma poll_spec (w : World) (lv : option Z) :
  poll w {| pc := Line41; last_value := lv |} =
  if bool_decide (Some (counter w) = lv)
  then ({| pc := Line41; last_value := lv |}, [])
  else ({| pc := Line41; last_value := Some (counter w) |},
        [frame (counter w)]).
Proof.
  unfold poll, advance; simpl. rewrite bool_decide_not.
  by destruct (bool_decide (Some (counter w) = lv)).
Qed.

Lemma lit_inj (s1 s2 : string) : lit s1 = lit s2 → s1 = s2.
Proof.
  unfold lit. intros Heq.
  rewrite <- (string_of_list_ascii_of_string s1).
  rewrite <- (string_of_list_ascii_of_string s2).
  f_equal. revert Heq.
  generalize (list_ascii_of_string s1) (list_ascii_of_string s2).
  induction l as [|a l IH]; intros [|b k]; simpl; try done.
  intros [= Hab Hlk]. f_equal; [|by apply IH].
  rewrite <- (ascii_N_embedding a), <- (ascii_N_embedding b).
  by rewrite Hab.
Qed.

(** X3. A frame names one value: two frames are equal exactly when their
    values are. *)
Lemma frame_names_its_value (n m : Z) : frame n = frame m ↔ n = m.
Proof.
  split; [|by intros ->].
  unfold frame, json_dumps_counter, str_of_int.
  rewrite <- !app_assoc. intros Heq.
  repeat apply app_inv_head in Heq. apply app_inv_tail in Heq.
  apply lit_inj in Heq. by apply (inj pretty).
Qed.

(** X1. While no pass of the loop is disturbed (the global is not written
    between line 41 and line 44 of one pass), a subscriber is sent a frame
    exactly for the observed values that differ from the value it was sent
    last. *)
Lemma observe_emits_transitions (lv : option Z) (observed : list Z) :
  observe observed {| pc := Line41; last_value := lv |}
  = frame <$> transitions lv observed.
Proof.
  revert lv. induction observed as [|c rest IH]; intros lv; [done|].
  cbn [observe transitions]. rewrite poll_spec. cbn [counter].
  case_bool_decide; simpl; by rewrite IH.
Qed.

Section Stream.
Context `{Runtime}.

Lemma event_message_plus_two (w : World) :
  lower_on_ascii → event_message (lit "+2") w = {| counter := counter w + 2 |}.
Proof.
  intros Hlower. unfold event_message, normalize.
  rewrite Hlower by (vm_compute; repeat constructor).
  reflexivity.
Qed.

(** A subscriber that waits at line 41 and remembers the current value of
    the global is sent nothing, however often it runs. *)
Lemma settled_subscriber_is_silent (n : nat) (p : Process) :
  subscriber p = {| pc := Line41; last_value := Some (counter (world p)) |} →
  run (replicate n SubscriberRuns) p = p.
Proof.
  intros Hsub. unfold run. induction n as [|n IH]; [done|].
  cbn [replicate foldl].
  assert (handle p SubscriberRuns = p) as ->; [|done].
  unfold handle, advance. rewrite Hsub; simpl.
  rewrite bool_decide_not, bool_decide_eq_true_2 by done. simpl.
  destruct p; simpl in *. rewrite app_nil_r. by subst.
Qed.

(** X2. A subscriber that connects to a process is first sent the value
    the counter has then, whatever happened to the counter before: there is
    no backlog. *)
Lemma first_frame_is_current_value (w : World) :
  sent (run [SubscriberRuns; SubscriberRuns] (connect w)) = [frame (counter w)].
Proof.
  reflexivity.
Qed.

(** C5, evaluated where the code departs from it. A subscriber connects
    while the counter is 0 and is sent the frame for 0; a chat message "+2"
    is handled while the generator is suspended at its [yield]; resumed,
    the generator stores the counter it reads then, which is 2. From there
    on it finds the counter equal to [last_value]: however often it runs,
    the frame for 2 is never sent, although 2 differs from the value sent
    last. *)
Theorem stream_skips_value_written_during_yield (n : nat) :
  lower_on_ascii →
  let p := run ([SubscriberRuns; SubscriberRuns; ChatMessage (lit "+2");
                 SubscriberRuns] ++ replicate n SubscriberRuns)
               (connect boot) in
  world p = {| counter := 2 |} ∧
  sent p = [frame 0] ∧
  subscriber p = {| pc := Line41; last_value := Some 2 |}.
Proof.
  intros Hlower. cbv zeta. unfold run. rewrite foldl_app.
  assert (foldl handle (connect boot)
            [SubscriberRuns; SubscriberRuns; ChatMessage (lit "+2");
             SubscriberRuns]
          = {| world := {| counter := 2 |};
               subscriber := {| pc := Line41; last_value := Some 2 |};
               sent := [frame 0] |}) as ->.
  { cbn [foldl]. unfold connect, handle at 1 2 3, advance; simpl.
    rewrite event_message_plus_two by done. reflexivity. }
  pose proof (settled_subscriber_is_silent n
    {| world := {| counter := 2 |};
       subscriber := {| pc := Line41; last_value := Some 2 |};
       sent := [frame 0] |} eq_refl) as Hsilent.
  unfold run in Hsilent. by rewrite Hsilent.
Qed.

End Stream.

Lemma stream_skips_value_written_during_yield_witness :
  sent (@run ascii_runtime
          [SubscriberRuns; SubscriberRuns; ChatMessage (lit "+2");
           SubscriberRuns; SubscriberRuns; SubscriberRuns; SubscriberRuns]
          (connect boot))
  = [frame 0].
Proof.
  exact (proj1 (proj2 (@stream_skips_value_written_during_yield
    ascii_runtime 3 ascii_runtime_lower))).
Defined.

(** ** The needle angle *)

(** The product and the quotient of line 151 round a real number to the
    nearest Number. The lemmas below show that this rounding is monotone
    and commutes with the change of sign, first for [binary_round_aux] on a
    positive quotient, then for the three operations of the line. *)

(** Case analysis on every comparison of integers in the goal. *)
Ltac split_comparisons :=
  repeat first
    [ match goal with
      | |- context [Z.leb ?x ?y] => destruct (Z.leb_spec x y)
      end
    | match goal with
      | |- context [Z.ltb ?x ?y] => destruct (Z.ltb_spec x y)
      end
    | match goal with
      | |- context [Z.eqb ?x ?y] => destruct (Z.eqb_spec x y)
      end ].

(** *** Shifting a cell right *)

Lemma iter_pos_nat {A} (f : A → A) (p : positive) (x : A) :
  SpecFloat.iter_pos f p x = Nat.iter (Pos.to_nat p) f x.
Proof.
  revert x. induction p as [p IH|p IH|]; intros x; cbn [SpecFloat.iter_pos].
  - rewrite !IH, Pos2Nat.inj_xI.
    replace (S (2 * Pos.to_nat p)) with (Pos.to_nat p + S (Pos.to_nat p))%nat
      by lia.
    by rewrite Nat.iter_add, Nat.iter_succ_r.
  - rewrite !IH, Pos2Nat.inj_xO.
    replace (2 * Pos.to_nat p)%nat with (Pos.to_nat p + Pos.to_nat p)%nat by lia.
    by rewrite Nat.iter_add.
  - reflexivity.
Qed.

Lemma shr_1_spec (m : Z) (r s : bool) :
  0 ≤ m →
  shr_1 {| shr_m := m; shr_r := r; shr_s := s |}
  = {| shr_m := m `div` 2; shr_r := Z.odd m; shr_s := r || s |}.
Proof.
  intros Hm. destruct m as [|[p|p|]|p]; try lia; simpl; f_equal.
  - rewrite Pos2Z.inj_xI. apply (Z.div_unique _ _ _ 1); lia.
  - rewrite Pos2Z.inj_xO. apply (Z.div_unique _ _ _ 0); lia.
Qed.

Lemma shr_1_cls (A B : Z) :
  0 ≤ A → 0 < B → shr_1 (cls A B) = cls A (2 * B).
Proof.
  intros HA HB. unfold cls. rewrite shr_1_spec by (apply Z.div_pos; lia).
  pose proof (Z.div_mod A B ltac:(lia)) as HAB.
  pose proof (Z.mod_pos_bound A B HB) as Hr.
  set (q := A `div` B) in *. set (r := A `mod` B) in *.
  pose proof (Z.div_mod q 2 ltac:(lia)) as Hq.
  pose proof (Z.mod_pos_bound q 2 ltac:(lia)) as Hb.
  assert (A `div` (2 * B) = q `div` 2) as Hdiv.
  { symmetry. apply (Z.div_unique _ _ _ (r + (q `mod` 2) * B)); nia. }
  assert (A `mod` (2 * B) = r + (q `mod` 2) * B) as Hmod.
  { symmetry. apply (Z.mod_unique _ _ (q `div` 2)); nia. }
  rewrite Hdiv, Hmod, Zodd_mod. clear Hdiv Hmod Hq HAB.
  assert (q `mod` 2 = 0 ∨ q `mod` 2 = 1) as [Hz|Hz] by lia; rewrite Hz;
    clear Hz Hb; simpl; f_equal;
    split_comparisons; simpl; try done; lia.
Qed.

Lemma shr_iter_cls (n : nat) (A B : Z) :
  0 ≤ A → 0 < B → Nat.iter n shr_1 (cls A B) = cls A (B * 2 ^ Z.of_nat n).
Proof.
  intros HA HB. induction n as [|n IH].
  - simpl. by rewrite Z.mul_1_r.
  - rewrite Nat.iter_succ, IH, shr_1_cls by (try apply Z.mul_pos_pos; lia).
    f_equal. rewrite Nat2Z.inj_succ, Z.pow_succ_r by lia. lia.
Qed.

Lemma shr_cls (A B e n : Z) :
  0 ≤ A → 0 < B → 0 ≤ n → shr (cls A B) e n = (cls A (B * 2 ^ n), e + n).
Proof.
  intros HA HB Hn. destruct n as [|p|p]; try lia; simpl.
  - by rewrite Z.mul_1_r, Z.add_0_r.
  - rewrite iter_pos_nat, shr_iter_cls, positive_nat_Z by done. done.
Qed.

Lemma rne_spec (A B : Z) :
  0 < B →
  rne A B =
    if 2 * (A `mod` B) <? B then A `div` B
    else if B <? 2 * (A `mod` B) then A `div` B + 1
    else if Z.even (A `div` B) then A `div` B else A `div` B + 1.
Proof.
  intros HB. unfold rne, cls; simpl.
  pose proof (Z.mod_pos_bound A B HB) as Hr.
  split_comparisons; simpl; try done; lia.
Qed.

Lemma rne_bounds (A B : Z) :
  0 < B → A `div` B ≤ rne A B ≤ A `div` B + 1.
Proof.
  intros HB. rewrite rne_spec by done. repeat case_match; lia.
Qed.

Lemma rne_exact (k B : Z) : 0 < B → rne (k * B) B = k.
Proof.
  intros HB. rewrite rne_spec by done.
  rewrite Z.mod_mul, Z.div_mul by lia.
  destruct (Z.ltb_spec (2 * 0) B); lia.
Qed.

Lemma rne_mono (A1 A2 B : Z) :
  0 < B → A1 ≤ A2 → rne A1 B ≤ rne A2 B.
Proof.
  intros HB HA.
  pose proof (Z.div_le_mono A1 A2 B HB HA) as Hq.
  destruct (decide (A1 `div` B = A2 `div` B)) as [Heq|Hne].
  - rewrite !rne_spec by done. rewrite <- Heq.
    assert (A1 `mod` B ≤ A2 `mod` B) as Hr.
    { rewrite !Z.mod_eq by lia. rewrite <- Heq. lia. }
    split_comparisons; try lia; destruct (Z.even _); lia.
  - pose proof (rne_bounds A1 B HB). pose proof (rne_bounds A2 B HB). lia.
Qed.

Lemma rne_scale (k A B : Z) :
  0 < k → 0 < B → rne (k * A) (k * B) = rne A B.
Proof.
  intros Hk HB. rewrite !rne_spec by nia.
  rewrite Z.div_mul_cancel_l, Zmult_mod_distr_l by lia.
  split_comparisons; try done; nia.
Qed.

(** [rne] is monotone in the rational [A / B]. *)
Lemma rne_mono_rat (A1 B1 A2 B2 : Z) :
  0 < B1 → 0 < B2 → A1 * B2 ≤ A2 * B1 → rne A1 B1 ≤ rne A2 B2.
Proof.
  intros H1 H2 Hle.
  rewrite <- (rne_scale B2 A1 B1), <- (rne_scale B1 A2 B2) by done.
  rewrite (Z.mul_comm B1 B2). apply rne_mono; nia.
Qed.

(** *** The number of binary digits *)

Lemma digits2_pos_bounds (p : positive) :
  2 ^ (Z.pos (digits2_pos p) - 1) ≤ Z.pos p < 2 ^ Z.pos (digits2_pos p).
Proof.
  induction p as [p IH|p IH|]; cbn [digits2_pos]; [| |by compute].
  all: rewrite Pos2Z.inj_succ;
    replace (Z.succ (Z.pos (digits2_pos p)) - 1) with
      (Z.succ (Z.pos (digits2_pos p) - 1)) by lia;
    rewrite !Z.pow_succ_r by lia; lia.
Qed.

Lemma Zdigits2_bounds (m : Z) :
  0 < m → 1 ≤ Zdigits2 m ∧ 2 ^ (Zdigits2 m - 1) ≤ m < 2 ^ Zdigits2 m.
Proof.
  destruct m as [|p|p]; try lia. intros _. simpl.
  split; [lia|apply digits2_pos_bounds].
Qed.

Lemma Zdigits2_unique (m d : Z) :
  2 ^ (d - 1) ≤ m < 2 ^ d → 1 ≤ d → Zdigits2 m = d.
Proof.
  intros [Hl Hu] Hd.
  assert (0 < m) as Hm by (pose proof (Z.pow_pos_nonneg 2 (d - 1)); lia).
  destruct (Zdigits2_bounds m Hm) as (Hd' & Hl' & Hu').
  assert (d - 1 < Zdigits2 m).
  { apply (Z.pow_lt_mono_r_iff 2); lia. }
  assert (Zdigits2 m - 1 < d).
  { apply (Z.pow_lt_mono_r_iff 2); lia. }
  lia.
Qed.

Lemma Zdigits2_mono (m1 m2 : Z) :
  0 < m1 → m1 ≤ m2 → Zdigits2 m1 ≤ Zdigits2 m2.
Proof.
  intros H1 H12.
  destruct (Zdigits2_bounds m1 H1) as (? & ? & ?).
  destruct (Zdigits2_bounds m2 ltac:(lia)) as (? & ? & ?).
  assert (Zdigits2 m1 - 1 < Zdigits2 m2); [|lia].
  apply (Z.pow_lt_mono_r_iff 2); lia.
Qed.

Lemma Zdigits2_mul_pow2 (m k : Z) :
  0 < m → 0 ≤ k → Zdigits2 (m * 2 ^ k) = Zdigits2 m + k.
Proof.
  intros Hm Hk. destruct (Zdigits2_bounds m Hm) as (Hd & Hl & Hu).
  apply Zdigits2_unique; [|lia].
  replace (Zdigits2 m + k - 1) with (Zdigits2 m - 1 + k) by lia.
  rewrite !Z.pow_add_r by lia.
  pose proof (Z.pow_pos_nonneg 2 k ltac:(lia) Hk). nia.
Qed.

Lemma fexp_eq (e : Z) : fexp 53 1024 e = Z.max (e - 53) (-1074).
Proof. reflexivity. Qed.

(** *** The rounding of a positive quotient *)

Lemma shr_record_of_loc_cls (c : shr_record) :
  shr_record_of_loc (shr_m c) (loc_of_shr_record c) = c.
Proof. by destruct c as [m [] []]. Qed.

Lemma cls_exact (Q : Z) :
  cls Q 1 = {| shr_m := Q; shr_r := false; shr_s := false |}.
Proof.
  unfold cls. rewrite Z.div_1_r, Z.mod_1_r. reflexivity.
Qed.

Lemma round_pos_q (A B : Z) : 0 < B → B ≤ A → 1 ≤ A `div` B.
Proof. intros HB HA. apply Z.div_le_lower_bound; lia. Qed.

Lemma round_pos_A (A B : Z) :
  0 < B → B ≤ A →
  2 ^ (Zdigits2 (A `div` B) - 1) * B ≤ A < 2 ^ Zdigits2 (A `div` B) * B.
Proof.
  intros HB HA. pose proof (round_pos_q A B HB HA) as Hq.
  destruct (Zdigits2_bounds (A `div` B) ltac:(lia)) as (Hd & Hl & Hu).
  pose proof (Z.div_mod A B ltac:(lia)). pose proof (Z.mod_pos_bound A B HB).
  nia.
Qed.

Lemma round_pos_Q_le (A B e : Z) :
  0 < B → B ≤ A → 0 ≤ shift_of A B e →
  0 ≤ rne A (B * 2 ^ shift_of A B e) ≤ 2 ^ 53.
Proof.
  intros HB HA Hn. pose proof (round_pos_A A B HB HA) as [_ Hu].
  set (n := shift_of A B e) in *. set (d := Zdigits2 (A `div` B)) in *.
  pose proof (Z.pow_pos_nonneg 2 n ltac:(lia) Hn) as Hpn.
  assert (0 < B * 2 ^ n) as HBn by nia.
  split.
  - pose proof (rne_bounds A (B * 2 ^ n) HBn).
    pose proof (Z.div_pos A (B * 2 ^ n)). lia.
  - rewrite <- (rne_exact (2 ^ 53) (B * 2 ^ n)) by done.
    apply rne_mono; [done|].
    assert (d ≤ 53 + n) as Hd
      by (unfold n, shift_of; fold d; rewrite fexp_eq; lia).
    assert (2 ^ d ≤ 2 ^ (53 + n)) by (apply Z.pow_le_mono_r; lia).
    rewrite Z.pow_add_r in * by lia. nia.
Qed.

(** In the normal range the mantissa has its 53 digits. *)
Lemma round_pos_Q_ge (A B e : Z) :
  0 < B → B ≤ A → 0 ≤ shift_of A B e →
  -1074 ≤ Zdigits2 (A `div` B) + e - 53 →
  2 ^ 52 ≤ rne A (B * 2 ^ shift_of A B e).
Proof.
  intros HB HA Hn Hnormal. pose proof (round_pos_A A B HB HA) as [Hl _].
  set (n := shift_of A B e) in *. set (d := Zdigits2 (A `div` B)) in *.
  pose proof (Z.pow_pos_nonneg 2 n ltac:(lia) Hn) as Hpn.
  assert (0 < B * 2 ^ n) as HBn by nia.
  rewrite <- (rne_exact (2 ^ 52) (B * 2 ^ n)) by done.
  apply rne_mono; [done|].
  assert (d - 1 = 52 + n) as Hd
    by (unfold n, shift_of; fold d; rewrite fexp_eq; lia).
  rewrite Hd, Z.pow_add_r in Hl by lia. nia.
Qed.

Lemma round_pos_spec (s : bool) (A B e : Z) :
  0 < B → B ≤ A → 0 ≤ shift_of A B e →
  round_pos s A B e
  = pack s (rne A (B * 2 ^ shift_of A B e)) (e + shift_of A B e).
Proof.
  intros HB HA Hn.
  pose proof (round_pos_Q_le A B e HB HA Hn) as [HQ0 HQ53].
  unfold round_pos, binary_round_aux, shr_fexp.
  replace (shr_record_of_loc (A `div` B) (loc_of_shr_record (cls A B)))
    with (cls A B) by (symmetry; apply (shr_record_of_loc_cls (cls A B))).
  fold (shift_of A B e). set (n := shift_of A B e) in *.
  rewrite shr_cls by (done || lia).
  change (round_nearest_even _ _) with (rne A (B * 2 ^ n)).
  set (Q := rne A (B * 2 ^ n)) in *.
  assert (-1074 ≤ e + n) as HE
    by (unfold n, shift_of; rewrite fexp_eq; lia).
  change (shr_record_of_loc Q loc_Exact)
    with {| shr_m := Q; shr_r := false; shr_s := false |}.
  unfold pack.
  destruct (Z.eqb_spec Q 0) as [HQ|HQ].
  { rewrite HQ. simpl Zdigits2. rewrite Z.add_0_l, fexp_eq.
    destruct (Z.max (e + n - 53) (-1074) - (e + n)) eqn:Hsh; try lia; done. }
  destruct (Zdigits2_bounds Q ltac:(lia)) as (HdQ & HlQ & HuQ).
  destruct (Z.ltb_spec Q (2 ^ 53)) as [Hlt|Hge].
  - assert (Zdigits2 Q ≤ 53) as HdQ'.
    { assert (Zdigits2 Q - 1 < 53); [|lia].
      apply (Z.pow_lt_mono_r_iff 2); lia. }
    rewrite fexp_eq.
    destruct (Z.max (Zdigits2 Q + (e + n) - 53) (-1074) - (e + n)) eqn:Hsh;
      try lia; simpl; destruct Q; try lia; done.
  - assert (Q = 2 ^ 53) as -> by lia.
    replace (fexp 53 1024 (Zdigits2 (2 ^ 53) + (e + n)) - (e + n)) with 1
      by (rewrite fexp_eq; change (Zdigits2 (2 ^ 53)) with 54; lia).
    reflexivity.
Qed.

(** *** Rounding is monotone *)

Lemma SFleb_finite (m1 m2 : positive) (e1 e2 : Z) :
  e1 < e2 ∨ (e1 = e2 ∧ (m1 ≤ m2)%positive) →
  SFleb (S754_finite false m1 e1) (S754_finite false m2 e2) = true.
Proof.
  unfold SFleb, SFcompare. intros [Hlt|[-> Hle]].
  - by rewrite (proj2 (Z.compare_lt_iff e1 e2) Hlt).
  - rewrite Z.compare_refl. fold (Pos.compare m1 m2).
    by destruct (m1 ?= m2)%positive eqn:Hc.
Qed.

Lemma pack_le_same (Q1 Q2 E : Z) :
  0 ≤ Q1 → Q1 ≤ Q2 → Q2 ≤ 2 ^ 53 →
  SFleb (pack false Q1 E) (pack false Q2 E) = true.
Proof.
  intros H0 H12 H2. unfold pack.
  split_comparisons; try lia; try done;
    apply SFleb_finite; lia.
Qed.

Lemma pack_le_lt (Q1 Q2 E1 E2 : Z) :
  E1 < E2 → 0 ≤ Q1 → Q1 ≤ 2 ^ 53 → 2 ^ 52 ≤ Q2 → Q2 ≤ 2 ^ 53 →
  SFleb (pack false Q1 E1) (pack false Q2 E2) = true.
Proof.
  intros HE H0 H1 H2 H3. unfold pack.
  split_comparisons; try lia; try done;
    apply SFleb_finite; lia.
Qed.

(** Rounding is monotone. *)
Lemma round_pos_mono (A1 B1 e1 A2 B2 e2 : Z) :
  0 < B1 → B1 ≤ A1 → 0 ≤ shift_of A1 B1 e1 →
  0 < B2 → B2 ≤ A2 → 0 ≤ shift_of A2 B2 e2 →
  rle A1 B1 e1 A2 B2 e2 →
  SFleb (round_pos false A1 B1 e1) (round_pos false A2 B2 e2) = true.
Proof.
  intros HB1 HA1 Hn1 HB2 HA2 Hn2 Hle. unfold rle in Hle.
  rewrite !round_pos_spec by done.
  pose proof (round_pos_A A1 B1 HB1 HA1) as [Hl1 Hu1].
  pose proof (round_pos_A A2 B2 HB2 HA2) as [Hl2 Hu2].
  pose proof (round_pos_Q_le A1 B1 e1 HB1 HA1 Hn1) as [HQ1 HQ1'].
  pose proof (round_pos_Q_le A2 B2 e2 HB2 HA2 Hn2) as [HQ2 HQ2'].
  pose proof (round_pos_Q_ge A2 B2 e2 HB2 HA2 Hn2) as HQ2n.
  pose proof (round_pos_q A1 B1 HB1 HA1) as Hq1.
  pose proof (round_pos_q A2 B2 HB2 HA2) as Hq2.
  destruct (Zdigits2_bounds (A1 `div` B1) ltac:(lia)) as (Hd1 & _).
  destruct (Zdigits2_bounds (A2 `div` B2) ltac:(lia)) as (Hd2 & _).
  unfold shift_of in *.
  set (d1 := Zdigits2 (A1 `div` B1)) in *.
  set (d2 := Zdigits2 (A2 `div` B2)) in *.
  set (n1 := fexp 53 1024 (d1 + e1) - e1) in *.
  set (n2 := fexp 53 1024 (d2 + e2) - e2) in *.
  set (c := Z.min e1 e2) in *.
  assert (0 < 2 ^ (e1 - c)) as Hx1 by (apply Z.pow_pos_nonneg; lia).
  assert (0 < 2 ^ (e2 - c)) as Hx2 by (apply Z.pow_pos_nonneg; lia).
  assert (d1 + e1 ≤ d2 + e2) as Hde.
  { assert (2 ^ (d1 - 1 + (e1 - c)) < 2 ^ (d2 + (e2 - c))) as Hpow.
    { rewrite !Z.pow_add_r by lia.
      apply (Z.mul_lt_mono_pos_r (B1 * B2)); [nia|].
      apply Z.le_lt_trans with (A1 * B2 * 2 ^ (e1 - c)).
      - replace (2 ^ (d1 - 1) * 2 ^ (e1 - c) * (B1 * B2))
          with (2 ^ (d1 - 1) * B1 * (B2 * 2 ^ (e1 - c))) by ring.
        replace (A1 * B2 * 2 ^ (e1 - c)) with (A1 * (B2 * 2 ^ (e1 - c))) by ring.
        apply Z.mul_le_mono_nonneg_r; nia.
      - apply Z.le_lt_trans with (A2 * B1 * 2 ^ (e2 - c)); [done|].
        replace (2 ^ d2 * 2 ^ (e2 - c) * (B1 * B2))
          with (2 ^ d2 * B2 * (B1 * 2 ^ (e2 - c))) by ring.
        replace (A2 * B1 * 2 ^ (e2 - c)) with (A2 * (B1 * 2 ^ (e2 - c))) by ring.
        apply Z.mul_lt_mono_pos_r; nia. }
    apply (Z.pow_lt_mono_r_iff 2) in Hpow; lia. }
  assert (e1 + n1 ≤ e2 + n2) as HE
    by (unfold n1, n2; rewrite !fexp_eq; lia).
  destruct (decide (e1 + n1 = e2 + n2)) as [Heq|Hne].
  - rewrite Heq. apply pack_le_same; [done| |done].
    assert (0 < 2 ^ n1) by (apply Z.pow_pos_nonneg; lia).
    assert (0 < 2 ^ n2) by (apply Z.pow_pos_nonneg; lia).
    apply rne_mono_rat; [nia|nia|].
    set (k := e2 + n2 - Z.max e1 e2).
    assert (0 ≤ k) by lia.
    replace n2 with (e1 - c + k) by lia.
    replace n1 with (e2 - c + k) by lia.
    rewrite !Z.pow_add_r by lia.
    assert (0 < 2 ^ k) by (apply Z.pow_pos_nonneg; lia).
    replace (A1 * (B2 * (2 ^ (e1 - c) * 2 ^ k)))
      with (A1 * B2 * 2 ^ (e1 - c) * 2 ^ k) by ring.
    replace (A2 * (B1 * (2 ^ (e2 - c) * 2 ^ k)))
      with (A2 * B1 * 2 ^ (e2 - c) * 2 ^ k) by ring.
    apply Z.mul_le_mono_nonneg_r; lia.
  - apply pack_le_lt; try done; try lia.
    apply HQ2n. unfold n1, n2 in *. rewrite !fexp_eq in *. lia.
Qed.

(** *** Signs *)

Lemma SFcompare_opp (a b : number) :
  SFcompare (SFopp a) (SFopp b) = SFcompare b a.
Proof.
  destruct a as [sa|sa| |sa ma ea], b as [sb|sb| |sb mb eb];
    try destruct sa; try destruct sb; try reflexivity; simpl.
  all: rewrite (Z.compare_antisym ea eb);
    destruct (ea ?= eb) eqn:Hc; simpl; try reflexivity.
  all: change (PosDef.Pos.compare_cont Eq mb ma) with (Pos.compare mb ma);
    change (PosDef.Pos.compare_cont Eq ma mb) with (Pos.compare ma mb);
    rewrite (Pos.compare_antisym ma mb); by destruct (ma ?= mb)%positive.
Qed.

Lemma SFleb_opp (a b : number) : SFleb (SFopp a) (SFopp b) = SFleb b a.
Proof. unfold SFleb. by rewrite SFcompare_opp. Qed.

Lemma SFleb_opp_nonneg (a b : number) :
  nonneg a → nonneg b → SFleb (SFopp a) b = true.
Proof.
  destruct a as [sa|[]| |[] ma ea], b as [sb|[]| |[] mb eb]; try done;
    try destruct sa; done.
Qed.

Lemma SFleb_zero_nonneg (s : bool) (b : number) :
  nonneg b → SFleb (S754_zero s) b = true.
Proof. destruct b as [sb|[]| |[] mb eb]; done. Qed.

Lemma SFleb_nonneg_inf (a : number) :
  nonneg a → SFleb a (S754_infinity false) = true.
Proof. destruct a as [sa|[]| |[] ma ea]; done. Qed.

Lemma pack_nonneg (Q E : Z) : nonneg (pack false Q E).
Proof. unfold pack. repeat case_match; done. Qed.

Lemma pack_opp (s : bool) (Q E : Z) :
  pack (negb s) Q E = SFopp (pack s Q E).
Proof. unfold pack. repeat case_match; done. Qed.

Lemma round_aux_opp (s : bool) (m e : Z) (l : location) :
  binary_round_aux 53 1024 (negb s) m e l
  = SFopp (binary_round_aux 53 1024 s m e l).
Proof.
  unfold binary_round_aux.
  destruct (shr_fexp 53 1024 m e l) as [mrs' e'].
  destruct (shr_fexp 53 1024 _ e' loc_Exact) as [mrs'' e''].
  repeat case_match; done.
Qed.

(** *** Numbers that are binary64 values *)

Lemma valid_finite (s : bool) (m : positive) (e : Z) :
  valid (S754_finite s m e) →
  fexp 53 1024 (Zdigits2 (Z.pos m) + e) = e ∧ e ≤ 971.
Proof.
  unfold valid, valid_binary, bounded, canonical_mantissa.
  rewrite andb_true_iff, Z.eqb_eq, Z.leb_le. done.
Qed.

Lemma valid_finite_digits (s : bool) (m : positive) (e : Z) :
  valid (S754_finite s m e) →
  Zdigits2 (Z.pos m) ≤ 53 ∧ -1074 ≤ e ∧
  (-1074 < e → Zdigits2 (Z.pos m) = 53).
Proof.
  intros [Hc _]%valid_finite. rewrite fexp_eq in Hc. lia.
Qed.

Lemma pack_valid (s : bool) (Q E : Z) :
  0 ≤ Q → Q ≤ 2 ^ 53 → -1074 ≤ E → (-1074 < E → 2 ^ 52 ≤ Q) →
  valid (pack s Q E).
Proof.
  intros HQ0 HQ1 HE Hn. unfold pack, valid.
  destruct (Z.eqb_spec Q 0); [done|].
  destruct (Z.ltb_spec Q (2 ^ 53)).
  - destruct (Z.leb_spec E 971); [|done].
    unfold valid_binary, bounded, canonical_mantissa.
    rewrite andb_true_iff, Z.eqb_eq, Z.leb_le. split; [|done].
    change (Z.pos (digits2_pos (Z.to_pos Q))) with (Zdigits2 (Z.pos (Z.to_pos Q))).
    rewrite Z2Pos.id by lia. rewrite fexp_eq.
    destruct (Zdigits2_bounds Q ltac:(lia)) as (Hd & Hl & Hu).
    assert (Zdigits2 Q ≤ 53).
    { assert (Zdigits2 Q - 1 < 53); [|lia].
      apply (Z.pow_lt_mono_r_iff 2); lia. }
    destruct (decide (E = -1074)) as [->|HE']; [lia|].
    rewrite (Zdigits2_unique Q 53); [lia| |lia].
    split; [apply Hn; lia|done].
  - destruct (Z.leb_spec (E + 1) 971); [|done].
    unfold valid_binary, bounded, canonical_mantissa.
    rewrite andb_true_iff, Z.eqb_eq, Z.leb_le. split; [|done].
    change (Z.pos (digits2_pos (Z.to_pos (2 ^ 52)))) with 53.
    rewrite fexp_eq. lia.
Qed.

Lemma round_pos_valid (s : bool) (A B e : Z) :
  0 < B → B ≤ A → 0 ≤ shift_of A B e → valid (round_pos s A B e).
Proof.
  intros HB HA Hn. rewrite round_pos_spec by done.
  pose proof (round_pos_Q_le A B e HB HA Hn) as [H0 H1].
  apply pack_valid; try done.
  - unfold shift_of. rewrite fexp_eq. lia.
  - intros HE. apply round_pos_Q_ge; try done.
    unfold shift_of in HE. rewrite fexp_eq in HE. lia.
Qed.

Lemma round_pos_opp (s : bool) (A B e : Z) :
  round_pos (negb s) A B e = SFopp (round_pos s A B e).
Proof. apply round_aux_opp. Qed.

(** The order of two valid positive floats is the order of their values. *)
Lemma canonical_le (m1 m2 : positive) (e1 e2 : Z) :
  valid (S754_finite false m1 e1) → valid (S754_finite false m2 e2) →
  SFleb (S754_finite false m1 e1) (S754_finite false m2 e2) = true →
  Z.pos m1 * 2 ^ (e1 - Z.min e1 e2) ≤ Z.pos m2 * 2 ^ (e2 - Z.min e1 e2).
Proof.
  intros (Hd1 & He1 & Hn1)%valid_finite_digits
         (Hd2 & He2 & Hn2)%valid_finite_digits.
  unfold SFleb, SFcompare.
  destruct (Z.compare_spec e1 e2) as [->|Hlt|Hgt]; [| |done].
  - rewrite Z.min_id, Z.sub_diag. fold (Pos.compare m1 m2).
    destruct (Pos.compare_spec m1 m2); try done; lia.
  - intros _. rewrite Z.min_l, Z.sub_diag by lia.
    destruct (Zdigits2_bounds (Z.pos m1) ltac:(lia)) as (_ & _ & Hu1).
    destruct (Zdigits2_bounds (Z.pos m2) ltac:(lia)) as (_ & Hl2 & _).
    rewrite Hn2 in Hl2 by lia.
    assert (2 ^ Zdigits2 (Z.pos m1) ≤ 2 ^ 53) by (apply Z.pow_le_mono_r; lia).
    assert (2 ^ 1 ≤ 2 ^ (e2 - e1)) by (apply Z.pow_le_mono_r; lia).
    change (2 ^ (53 - 1)) with 4503599627370496 in Hl2.
    change (2 ^ 53) with 9007199254740992 in *.
    change (2 ^ 1) with 2 in *. nia.
Qed.

(** *** Conversion, product and quotient as roundings *)

Lemma loc_cls_exact (A : Z) : loc_of_shr_record (cls A 1) = loc_Exact.
Proof. by rewrite cls_exact. Qed.

Lemma round_pos_exact (s : bool) (A e : Z) :
  round_pos s A 1 e = binary_round_aux 53 1024 s A e loc_Exact.
Proof. unfold round_pos. by rewrite loc_cls_exact, Z.div_1_r. Qed.

Lemma number_of_int_pos (s : bool) (m : positive) :
  binary_round 53 1024 s m 0
  = round_pos s (Z.pos m * 2 ^ int_shift m) 1 (- int_shift m).
Proof.
  rewrite round_pos_exact. unfold binary_round, shl_align, int_shift.
  change (Z.pos (digits2_pos m)) with (Zdigits2 (Z.pos m)).
  rewrite fexp_eq.
  destruct (Zdigits2_bounds (Z.pos m) ltac:(lia)) as (Hd & _ & _).
  destruct (Z.max (Zdigits2 (Z.pos m) + 0 - 53) (-1074) - 0) as [|p|p] eqn:Hz.
  - rewrite Z.max_r by lia. by rewrite Z.mul_1_r.
  - rewrite Z.max_r by lia. by rewrite Z.mul_1_r.
  - rewrite Z.max_l by lia.
    change (PosDef.Pos.iter xO m p) with (shift_pos p m).
    rewrite shift_pos_correct, Z.pow_pos_fold.
    replace (53 - Zdigits2 (Z.pos m)) with (Z.pos p) by lia.
    rewrite (Z.mul_comm (Z.pos m)). f_equal; lia.
Qed.

Lemma int_shift_ok (m : positive) :
  0 ≤ int_shift m ∧
  1 ≤ Z.pos m * 2 ^ int_shift m ∧
  Zdigits2 ((Z.pos m * 2 ^ int_shift m) `div` 1) = Zdigits2 (Z.pos m) + int_shift m ∧
  shift_of (Z.pos m * 2 ^ int_shift m) 1 (- int_shift m)
  = Zdigits2 (Z.pos m) - 53 + int_shift m.
Proof.
  assert (0 ≤ int_shift m) as Hk by (unfold int_shift; lia).
  pose proof (Z.pow_pos_nonneg 2 (int_shift m) ltac:(lia) Hk).
  destruct (Zdigits2_bounds (Z.pos m) ltac:(lia)) as (Hd & _ & _).
  split; [done|]. split; [nia|].
  assert (Zdigits2 ((Z.pos m * 2 ^ int_shift m) `div` 1)
          = Zdigits2 (Z.pos m) + int_shift m) as Hdig.
  { rewrite Z.div_1_r. apply Zdigits2_mul_pow2; lia. }
  split; [done|].
  unfold shift_of. rewrite Hdig, fexp_eq. unfold int_shift in *. lia.
Qed.

Lemma number_of_int_mono_pos (m1 m2 : positive) :
  (m1 ≤ m2)%positive →
  SFleb (binary_round 53 1024 false m1 0) (binary_round 53 1024 false m2 0) = true.
Proof.
  intros Hle. rewrite !number_of_int_pos.
  destruct (int_shift_ok m1) as (Hk1 & HA1 & _ & Hs1).
  destruct (int_shift_ok m2) as (Hk2 & HA2 & _ & Hs2).
  apply round_pos_mono; try lia.
  - unfold int_shift in *. lia.
  - unfold int_shift in *. lia.
  - unfold rle. rewrite !Z.mul_1_r.
    set (c := Z.min (- int_shift m1) (- int_shift m2)).
    rewrite <- !Z.mul_assoc, <- !Z.pow_add_r by lia.
    replace (int_shift m1 + (- int_shift m1 - c)) with (- c) by lia.
    replace (int_shift m2 + (- int_shift m2 - c)) with (- c) by lia.
    apply Z.mul_le_mono_nonneg_r; [apply Z.pow_nonneg|]; lia.
Qed.

Lemma pack_big (s : bool) (Q E : Z) :
  2 ^ 52 ≤ Q → -52 ≤ E → big (pack s Q E).
Proof.
  intros HQ HE. unfold pack.
  destruct (Z.eqb_spec Q 0); [done|].
  destruct (Z.ltb_spec Q (2 ^ 53)).
  - destruct (Z.leb_spec E 971); [|done]. simpl.
    change (Z.pos (digits2_pos (Z.to_pos Q))) with (Zdigits2 (Z.pos (Z.to_pos Q))).
    rewrite Z2Pos.id by lia.
    rewrite (Zdigits2_unique Q 53); lia.
  - destruct (Z.leb_spec (E + 1) 971); [|done]. simpl.
    change (Z.pos (digits2_pos (Z.to_pos (2 ^ 52)))) with 53. lia.
Qed.

Lemma number_of_int_pos_ok (s : bool) (m : positive) :
  valid (binary_round 53 1024 s m 0) ∧ big (binary_round 53 1024 s m 0).
Proof.
  rewrite number_of_int_pos.
  destruct (int_shift_ok m) as (Hk & HA & Hd & Hs).
  destruct (Zdigits2_bounds (Z.pos m) ltac:(lia)) as (Hd1 & _ & _).
  assert (0 ≤ shift_of (Z.pos m * 2 ^ int_shift m) 1 (- int_shift m))
    by (rewrite Hs; unfold int_shift; lia).
  split; [apply round_pos_valid; lia|].
  rewrite round_pos_spec by lia.
  apply pack_big.
  - apply round_pos_Q_ge; lia.
  - rewrite Hs. lia.
Qed.

Lemma number_of_int_90 :
  number_of_int 90 = S754_finite false 6333186975989760 (-46).
Proof. reflexivity. Qed.

Lemma number_of_int_500 :
  number_of_int 500 = S754_finite false 8796093022208000 (-44).
Proof. reflexivity. Qed.

Lemma times_90_finite (s : bool) (m : positive) (e : Z) :
  number_mul (S754_finite s m e) (number_of_int 90)
  = round_pos s (Z.pos m * 6333186975989760) 1 (e + -46).
Proof.
  rewrite number_of_int_90, round_pos_exact. unfold number_mul, SFmul.
  by rewrite xorb_false_r, Pos2Z.inj_mul.
Qed.

Lemma times_90_shift (s : bool) (m : positive) (e : Z) :
  valid (S754_finite s m e) →
  0 ≤ shift_of (Z.pos m * 6333186975989760) 1 (e + -46).
Proof.
  intros (Hd & He & Hn)%valid_finite_digits.
  unfold shift_of. rewrite Z.div_1_r, fexp_eq.
  destruct (Zdigits2_bounds (Z.pos m) ltac:(lia)) as (Hd1 & _ & _).
  pose proof (Zdigits2_mono (Z.pos m * 2 ^ 52) (Z.pos m * 6333186975989760)
                ltac:(lia) ltac:(lia)) as Hm.
  rewrite Zdigits2_mul_pow2 in Hm by lia.
  destruct (decide (e = -1074)) as [->|]; [lia|].
  rewrite Hn in Hm by lia. lia.
Qed.

Lemma times_90_mono_pos (m1 m2 : positive) (e1 e2 : Z) :
  valid (S754_finite false m1 e1) → valid (S754_finite false m2 e2) →
  SFleb (S754_finite false m1 e1) (S754_finite false m2 e2) = true →
  SFleb (number_mul (S754_finite false m1 e1) (number_of_int 90))
        (number_mul (S754_finite false m2 e2) (number_of_int 90)) = true.
Proof.
  intros Hv1 Hv2 Hle. rewrite !times_90_finite.
  apply round_pos_mono; try lia; try by eapply times_90_shift.
  unfold rle.
  replace (Z.min (e1 + -46) (e2 + -46)) with (Z.min e1 e2 + -46) by lia.
  replace (e1 + -46 - (Z.min e1 e2 + -46)) with (e1 - Z.min e1 e2) by lia.
  replace (e2 + -46 - (Z.min e1 e2 + -46)) with (e2 - Z.min e1 e2) by lia.
  pose proof (canonical_le m1 m2 e1 e2 Hv1 Hv2 Hle). nia.
Qed.

Lemma loc_cls (A B : Z) :
  0 < B → loc_of_shr_record (cls A B) = new_location_even B (A `mod` B).
Proof.
  intros HB. pose proof (Z.mod_pos_bound A B HB).
  unfold cls, new_location_even, loc_of_shr_record.
  destruct (Z.eqb_spec (A `mod` B) 0) as [->|Hr]; simpl.
  { destruct (Z.leb_spec B (2 * 0)); [lia|done]. }
  destruct (Z.compare_spec (2 * (A `mod` B)) B);
    destruct (Z.leb_spec B (2 * (A `mod` B)));
    destruct (Z.eqb_spec (2 * (A `mod` B)) B); try lia; done.
Qed.

Lemma SFdiv_core_binary_eq (m1 e1 m2 e2 : Z) :
  SFdiv_core_binary 53 1024 m1 e1 m2 e2 =
  let e' := Z.min (fexp 53 1024 (Zdigits2 m1 + e1 - (Zdigits2 m2 + e2))) (e1 - e2) in
  let m' := match e1 - e2 - e' with
            | 0 => m1
            | Z.pos _ => Z.shiftl m1 (e1 - e2 - e')
            | Z.neg _ => 0
            end in
  (m' `div` m2, e', new_location m2 (m' `mod` m2)).
Proof.
  unfold SFdiv_core_binary. cbv zeta. unfold Z.div, Z.modulo.
  by destruct (Z.div_eucl _ m2).
Qed.

Lemma over_500_finite (s : bool) (m : positive) (e : Z) :
  valid (S754_finite s m e) → big (S754_finite s m e) →
  number_div (S754_finite s m e) (number_of_int 500)
  = round_pos s (Z.pos m * 2 ^ (106 - Zdigits2 (Z.pos m))) 8796093022208000
      (Zdigits2 (Z.pos m) + e - 62).
Proof.
  intros (Hd & He & Hn)%valid_finite_digits Hb. unfold big in Hb.
  rewrite number_of_int_500. unfold number_div, SFdiv.
  rewrite SFdiv_core_binary_eq. cbv zeta.
  change (Zdigits2 8796093022208000) with 53. rewrite fexp_eq.
  destruct (Zdigits2_bounds (Z.pos m) ltac:(lia)) as (Hd1 & _ & _).
  replace (Z.min _ (e - -44)) with (Zdigits2 (Z.pos m) + e - 62) by lia.
  replace (e - -44 - (Zdigits2 (Z.pos m) + e - 62))
    with (106 - Zdigits2 (Z.pos m)) by lia.
  destruct (106 - Zdigits2 (Z.pos m)) as [|p|p] eqn:Hs; try lia.
  rewrite Z.shiftl_mul_pow2 by lia. rewrite xorb_false_r.
  unfold round_pos. rewrite loc_cls by lia. reflexivity.
Qed.

Lemma over_500_side (m : positive) (e : Z) :
  valid (S754_finite false m e) →
  8796093022208000 ≤ Z.pos m * 2 ^ (106 - Zdigits2 (Z.pos m)) ∧
  0 ≤ shift_of (Z.pos m * 2 ^ (106 - Zdigits2 (Z.pos m))) 8796093022208000
        (Zdigits2 (Z.pos m) + e - 62).
Proof.
  intros (Hd & He & Hn)%valid_finite_digits.
  destruct (Zdigits2_bounds (Z.pos m) ltac:(lia)) as (Hd1 & Hl & _).
  set (d := Zdigits2 (Z.pos m)) in *.
  assert (2 ^ 105 ≤ Z.pos m * 2 ^ (106 - d)) as HA.
  { replace 105 with (d - 1 + (106 - d)) by lia.
    rewrite Z.pow_add_r by lia.
    apply Z.mul_le_mono_nonneg_r; [apply Z.pow_nonneg|]; lia. }
  split; [change (2 ^ 105) with 40564819207303340847894502572032 in HA; lia|].
  unfold shift_of. rewrite fexp_eq.
  assert (2 ^ 52 ≤ (Z.pos m * 2 ^ (106 - d)) `div` 8796093022208000) as Hq.
  { apply Z.div_le_lower_bound; [lia|].
    etrans; [|exact HA]. by vm_compute. }
  pose proof (Zdigits2_mono (2 ^ 52) _ ltac:(lia) Hq) as Hdq.
  change (Zdigits2 (2 ^ 52)) with 53 in Hdq. lia.
Qed.

Lemma over_500_mono_pos (m1 m2 : positive) (e1 e2 : Z) :
  valid (S754_finite false m1 e1) → valid (S754_finite false m2 e2) →
  big (S754_finite false m1 e1) → big (S754_finite false m2 e2) →
  SFleb (S754_finite false m1 e1) (S754_finite false m2 e2) = true →
  SFleb (number_div (S754_finite false m1 e1) (number_of_int 500))
        (number_div (S754_finite false m2 e2) (number_of_int 500)) = true.
Proof.
  intros Hv1 Hv2 Hb1 Hb2 Hle. rewrite !over_500_finite by done.
  destruct (over_500_side m1 e1 Hv1) as [HA1 Hs1].
  destruct (over_500_side m2 e2 Hv2) as [HA2 Hs2].
  pose proof (canonical_le m1 m2 e1 e2 Hv1 Hv2 Hle) as Hc.
  apply valid_finite_digits in Hv1 as (Hd1 & _ & _).
  apply valid_finite_digits in Hv2 as (Hd2 & _ & _).
  destruct (Zdigits2_bounds (Z.pos m1) ltac:(lia)) as (Hp1 & _ & _).
  destruct (Zdigits2_bounds (Z.pos m2) ltac:(lia)) as (Hp2 & _ & _).
  apply round_pos_mono; try lia. unfold rle.
  set (d1 := Zdigits2 (Z.pos m1)) in *. set (d2 := Zdigits2 (Z.pos m2)) in *.
  set (c := Z.min e1 e2) in *.
  set (c' := Z.min (d1 + e1 - 62) (d2 + e2 - 62)).
  assert (Z.pos m1 * 2 ^ (106 - d1) * 2 ^ (d1 + e1 - 62 - c')
          = Z.pos m1 * 2 ^ (e1 - c) * 2 ^ (c + 44 - c')) as H1.
  { rewrite <- !Z.mul_assoc, <- !Z.pow_add_r by lia. do 2 f_equal. lia. }
  assert (Z.pos m2 * 2 ^ (106 - d2) * 2 ^ (d2 + e2 - 62 - c')
          = Z.pos m2 * 2 ^ (e2 - c) * 2 ^ (c + 44 - c')) as H2.
  { rewrite <- !Z.mul_assoc, <- !Z.pow_add_r by lia. do 2 f_equal. lia. }
  pose proof (Z.pow_nonneg 2 (c + 44 - c') ltac:(lia)).
  nia.
Qed.

Lemma round_pos_nonneg (A B e : Z) :
  0 < B → B ≤ A → 0 ≤ shift_of A B e → nonneg (round_pos false A B e).
Proof. intros. rewrite round_pos_spec by done. apply pack_nonneg. Qed.

(** *** From the positive Numbers to all of them *)

Lemma lift_mono_gen (F : number → number) (dom : positive → Z → Prop) :
  (∀ x, F (SFopp x) = SFopp (F x)) →
  (∀ s, F (S754_zero s) = S754_zero s) →
  (∀ x, positive_number x → valid x → within dom x → nonneg (F x)) →
  (∀ x y, positive_number x → positive_number y → valid x → valid y →
     within dom x → within dom y →
     SFleb x y = true → SFleb (F x) (F y) = true) →
  ∀ x y, valid x → valid y → within dom x → within dom y →
    SFleb x y = true → SFleb (F x) (F y) = true.
Proof.
  intros Fopp Fzero Fpos Fmono x y Hvx Hvy Hdx Hdy Hle.
  assert (∀ m e, S754_finite true m e = SFopp (S754_finite false m e)) as Hneg
    by done.
  assert (S754_infinity true = SFopp (S754_infinity false)) as Hinf by done.
  destruct x as [sx|[]| |[] mx ex], y as [sy|[]| |[] my ey];
    try discriminate Hle;
    rewrite ?Fzero, ?Hneg, ?Hinf, ?Fopp;
    first [ reflexivity
          | by apply Fmono
          | rewrite SFleb_opp; apply Fmono; try done; by rewrite <- SFleb_opp
          | apply SFleb_zero_nonneg; by apply Fpos
          | apply SFleb_opp_nonneg; first [done | by apply Fpos] ].
Qed.

Lemma lift_mono (F : number → number) (dom : positive → Z → Prop) :
  (∀ x, F (SFopp x) = SFopp (F x)) →
  (∀ s, F (S754_zero s) = S754_zero s) →
  (∀ s, F (S754_infinity s) = S754_infinity s) →
  (∀ m e, valid (S754_finite false m e) → dom m e →
     nonneg (F (S754_finite false m e))) →
  (∀ m1 e1 m2 e2,
     valid (S754_finite false m1 e1) → valid (S754_finite false m2 e2) →
     dom m1 e1 → dom m2 e2 →
     SFleb (S754_finite false m1 e1) (S754_finite false m2 e2) = true →
     SFleb (F (S754_finite false m1 e1)) (F (S754_finite false m2 e2)) = true) →
  ∀ x y, valid x → valid y → within dom x → within dom y →
    SFleb x y = true → SFleb (F x) (F y) = true.
Proof.
  intros Fopp Fzero Finf Fpos Fmono. apply lift_mono_gen; try done.
  - intros [|[]| |[] m e] Hp Hv Hd; try done.
    + by rewrite Finf.
    + by apply Fpos.
  - intros [|[]| |[] m1 e1] [|[]| |[] m2 e2] Hp1 Hp2 Hv1 Hv2 Hd1 Hd2 Hle;
      try done; rewrite ?Finf; try done.
    + apply SFleb_nonneg_inf. by apply Fpos.
    + by apply Fmono.
Qed.

Lemma valid_sign (s s' : bool) (m : positive) (e : Z) :
  valid (S754_finite s m e) → valid (S754_finite s' m e).
Proof. done. Qed.

Lemma valid_opp (x : number) : valid x → valid (SFopp x).
Proof. by destruct x. Qed.

Lemma SFopp_involutive (x : number) : SFopp (SFopp x) = x.
Proof. destruct x as [[]|[]| |[] m e]; done. Qed.

Lemma SFleb_not_nan (x y : number) : SFleb x y = true → x ≠ S754_nan.
Proof. by intros H ->. Qed.

Lemma times_90_opp (x : number) :
  number_mul (SFopp x) (number_of_int 90)
  = SFopp (number_mul x (number_of_int 90)).
Proof.
  destruct x as [[]|[]| |s m e]; try reflexivity.
  change (SFopp (S754_finite s m e)) with (S754_finite (negb s) m e).
  rewrite !times_90_finite. apply round_pos_opp.
Qed.

Lemma times_90_mono (x y : number) :
  valid x → valid y → SFleb x y = true →
  SFleb (number_mul x (number_of_int 90)) (number_mul y (number_of_int 90))
  = true.
Proof.
  intros Hx Hy. apply (lift_mono (λ x, number_mul x (number_of_int 90))
                         (λ _ _, True)); try done.
  - apply times_90_opp.
  - by intros [].
  - by intros [].
  - intros m e Hv _. rewrite times_90_finite.
    apply round_pos_nonneg; [lia|lia|by eapply times_90_shift].
  - intros m1 e1 m2 e2 Hv1 Hv2 _ _. by apply times_90_mono_pos.
  - by destruct x.
  - by destruct y.
Qed.

Lemma over_500_opp (x : number) :
  number_div (SFopp x) (number_of_int 500)
  = SFopp (number_div x (number_of_int 500)).
Proof.
  destruct x as [[]|[]| |s m e]; try reflexivity.
  rewrite number_of_int_500. unfold number_div, SFopp at 1, SFdiv.
  destruct (SFdiv_core_binary 53 1024 (Z.pos m) e 8796093022208000 (-44))
    as [[mz ez] lz].
  rewrite !xorb_false_r. apply round_aux_opp.
Qed.

Lemma over_500_valid (x : number) :
  valid x → big x →
  valid (number_div x (number_of_int 500)).
Proof.
  destruct x as [[]|[]| |s m e]; try done. intros Hv Hb.
  rewrite over_500_finite by done.
  destruct (over_500_side m e Hv). apply round_pos_valid; lia.
Qed.

Lemma over_500_mono (x y : number) :
  valid x → valid y →
  big x →
  big y →
  SFleb x y = true →
  SFleb (number_div x (number_of_int 500)) (number_div y (number_of_int 500))
  = true.
Proof.
  apply (lift_mono (λ x, number_div x (number_of_int 500))
           (λ m e, 1 ≤ Zdigits2 (Z.pos m) + e)).
  - apply over_500_opp.
  - by intros [].
  - by intros [].
  - intros m e Hv Hb. rewrite over_500_finite by done.
    destruct (over_500_side m e Hv). apply round_pos_nonneg; lia.
  - intros m1 e1 m2 e2. apply over_500_mono_pos.
Qed.

(** *** The counter as a Number *)

Lemma number_of_int_opp (n : Z) :
  n ≠ 0 → number_of_int (- n) = SFopp (number_of_int n).
Proof.
  intros Hn. unfold number_of_int.
  destruct n as [|m|m]; [done| |]; simpl; rewrite !number_of_int_pos.
  - apply (round_pos_opp false).
  - by rewrite (round_pos_opp false), SFopp_involutive.
Qed.

Lemma number_of_int_nonneg (m : positive) :
  nonneg (number_of_int (Z.pos m)).
Proof.
  unfold number_of_int, binary_normalize. rewrite number_of_int_pos.
  destruct (int_shift_ok m) as (Hk & HA & _ & Hs).
  destruct (Zdigits2_bounds (Z.pos m) ltac:(lia)) as (Hd1 & _ & _).
  apply round_pos_nonneg; [lia|lia|]. rewrite Hs. unfold int_shift. lia.
Qed.

Lemma number_of_int_ok (n : Z) :
  valid (number_of_int n) ∧
  big (number_of_int n).
Proof.
  destruct n as [|m|m]; [done| |]; apply number_of_int_pos_ok.
Qed.

Lemma number_of_int_mono (n1 n2 : Z) :
  n1 ≤ n2 → SFleb (number_of_int n1) (number_of_int n2) = true.
Proof.
  intros Hle.
  assert (∀ m, number_of_int (Z.neg m) = SFopp (number_of_int (Z.pos m)))
    as Hneg by (intros m; by apply (number_of_int_opp (Z.pos m))).
  destruct n1 as [|m1|m1], n2 as [|m2|m2]; try lia; rewrite ?Hneg.
  - done.
  - apply (SFleb_zero_nonneg false), number_of_int_nonneg.
  - by apply number_of_int_mono_pos.
  - apply SFleb_opp_nonneg; [apply number_of_int_nonneg|done].
  - apply SFleb_opp_nonneg; apply number_of_int_nonneg.
  - rewrite SFleb_opp. apply number_of_int_mono_pos. lia.
Qed.

(** *** The argument of the hyperbolic tangent *)

Lemma scaled_valid (n : Z) : valid (scaled n).
Proof. destruct (number_of_int_ok n). by apply over_500_valid. Qed.

Lemma scaled_mono (n1 n2 : Z) :
  n1 ≤ n2 → SFleb (scaled n1) (scaled n2) = true.
Proof.
  intros Hle. destruct (number_of_int_ok n1), (number_of_int_ok n2).
  apply over_500_mono; try done. by apply number_of_int_mono.
Qed.

Lemma scaled_not_nan (n : Z) : scaled n ≠ S754_nan.
Proof. apply (SFleb_not_nan _ (scaled n)), scaled_mono. lia. Qed.

Lemma scaled_opp (n : Z) : n ≠ 0 → scaled (- n) = SFopp (scaled n).
Proof.
  intros Hn. unfold scaled. by rewrite number_of_int_opp, over_500_opp.
Qed.

Lemma SFleb_antisym_finite (a : number) (m : positive) (e : Z) :
  SFleb a (S754_finite false m e) = true →
  SFleb (S754_finite false m e) a = true →
  a = S754_finite false m e.
Proof.
  destruct a as [sa|[]| |[] ma ea]; try done.
  unfold SFleb, SFcompare.
  destruct (Z.compare_spec ea e) as [->|Hlt|Hgt];
    [|by rewrite (proj2 (Z.compare_gt_iff e ea) Hlt)|done].
  rewrite Z.compare_refl.
  change (PosDef.Pos.compare_cont Eq ma m) with (Pos.compare ma m).
  change (PosDef.Pos.compare_cont Eq m ma) with (Pos.compare m ma).
  rewrite (Pos.compare_antisym ma m).
  destruct (Pos.compare_spec ma m) as [->| |]; done.
Qed.

Lemma SFltb_irrefl (x : number) : SFltb x x = false.
Proof.
  destruct x as [s|[]| |[] m e]; try done; unfold SFltb, SFcompare;
    rewrite Z.compare_refl;
    change (PosDef.Pos.compare_cont Eq m m) with (Pos.compare m m);
    by rewrite Pos.compare_refl.
Qed.

Lemma tanh_lower (tanh : number → number) (x : number) :
  tanh_like tanh → valid x → x ≠ S754_nan →
  SFleb (number_of_int (-1)) (tanh x) = true.
Proof.
  intros H Hv Hn.
  destruct (tanh_range tanh H (SFopp x)) as [_ Hle].
  { by apply valid_opp. }
  { by destruct x. }
  rewrite (tanh_odd tanh H) in Hle.
  change (number_of_int (-1)) with (SFopp (number_of_int 1)).
  by rewrite <- SFleb_opp, SFopp_involutive.
Qed.

(** *** The angle *)

Section Needle.

Variable tanh : number → number.
Hypothesis tanh_ok : tanh_like tanh.

Lemma angle_zero : angle tanh 0 = S754_zero false.
Proof using tanh_ok.
  unfold angle.
  change (number_div (number_of_int 0) (number_of_int 500))
    with (S754_zero false).
  by rewrite (tanh_zero tanh tanh_ok).
Qed.

Lemma angle_odd (n : Z) :
  n ≠ 0 → angle tanh (- n) = SFopp (angle tanh n).
Proof using tanh_ok.
  intros Hn. unfold angle. fold (scaled (- n)). fold (scaled n).
  by rewrite scaled_opp, (tanh_odd tanh tanh_ok), times_90_opp.
Qed.

Lemma angle_mono (n1 n2 : Z) :
  n1 ≤ n2 → SFleb (angle tanh n1) (angle tanh n2) = true.
Proof using tanh_ok.
  intros Hle. unfold angle. fold (scaled n1). fold (scaled n2).
  apply times_90_mono.
  - apply (tanh_range tanh tanh_ok); [apply scaled_valid|apply scaled_not_nan].
  - apply (tanh_range tanh tanh_ok); [apply scaled_valid|apply scaled_not_nan].
  - apply (tanh_mono tanh tanh_ok); [apply scaled_valid..|by apply scaled_mono].
Qed.

Lemma angle_bounds (n : Z) :
  SFleb (number_of_int (-90)) (angle tanh n) = true ∧
  SFleb (angle tanh n) (number_of_int 90) = true.
Proof using tanh_ok.
  unfold angle. fold (scaled n).
  destruct (tanh_range tanh tanh_ok (scaled n)) as [Hv Hle];
    [apply scaled_valid|apply scaled_not_nan|].
  split.
  - change (number_of_int (-90))
      with (number_mul (number_of_int (-1)) (number_of_int 90)).
    apply times_90_mono; [done|done|].
    apply tanh_lower; [done|apply scaled_valid|apply scaled_not_nan].
  - change (number_of_int 90)
      with (number_mul (number_of_int 1) (number_of_int 90)) at 2.
    by apply times_90_mono.
Qed.

Lemma angle_saturates (n : Z) :
  10000 ≤ n → angle tanh n = number_of_int 90.
Proof using tanh_ok.
  intros Hn. unfold angle. fold (scaled n).
  destruct (tanh_range tanh tanh_ok (scaled n)) as [Hv Hle];
    [apply scaled_valid|apply scaled_not_nan|].
  assert (tanh (scaled n) = number_of_int 1) as ->; [|done].
  assert (SFleb (number_of_int 1) (tanh (scaled n)) = true) as Hge.
  { rewrite <- (tanh_saturates tanh tanh_ok) at 1.
    apply (tanh_mono tanh tanh_ok); [done|apply scaled_valid|].
    change (number_of_int 20) with (scaled 10000). by apply scaled_mono. }
  by apply SFleb_antisym_finite.
Qed.
End Needle.

Lemma number_of_int_plateau :
  number_of_int (2 ^ 54) = number_of_int (2 ^ 54 + 2).
Proof. reflexivity. Qed.

(** *** The clamped identity as a hyperbolic tangent *)

Lemma SFleb_pos_iff (m1 m2 : positive) (e1 e2 : Z) :
  SFleb (S754_finite false m1 e1) (S754_finite false m2 e2) = true
  ↔ e1 < e2 ∨ (e1 = e2 ∧ Z.pos m1 ≤ Z.pos m2).
Proof.
  unfold SFleb, SFcompare.
  destruct (Z.compare_spec e1 e2) as [->|Hlt|Hgt].
  - change (PosDef.Pos.compare_cont Eq m1 m2) with (Pos.compare m1 m2).
    destruct (Pos.compare_spec m1 m2); split; try done; try lia.
  - split; [lia|done].
  - split; [done|lia].
Qed.

Lemma clamp_pos (m : positive) (e : Z) :
  clamp (S754_finite false m e)
  = if SFleb (number_of_int 1) (S754_finite false m e) then number_of_int 1
    else S754_finite false m e.
Proof. done. Qed.

Lemma clamp_opp (x : number) : clamp (SFopp x) = SFopp (clamp x).
Proof.
  destruct x as [[]|[]| |[] m e]; try done.
  - change (S754_finite true m e) with (SFopp (S754_finite false m e)).
    rewrite SFopp_involutive, (clamp_pos m e). unfold clamp.
    change (number_of_int (-1)) with (SFopp (number_of_int 1)).
    rewrite SFleb_opp.
    by destruct (SFleb (number_of_int 1) (S754_finite false m e)).
  - change (SFopp (S754_finite false m e))
      with (SFopp (S754_finite false m e)).
    rewrite (clamp_pos m e). unfold clamp.
    change (number_of_int (-1)) with (SFopp (number_of_int 1)).
    rewrite SFleb_opp. cbn [SFopp negb].
    by destruct (SFleb (number_of_int 1) (S754_finite false m e)).
Qed.

Lemma clamp_mono_pos (m1 m2 : positive) (e1 e2 : Z) :
  SFleb (S754_finite false m1 e1) (S754_finite false m2 e2) = true →
  SFleb (clamp (S754_finite false m1 e1)) (clamp (S754_finite false m2 e2))
  = true.
Proof.
  intros Hle. rewrite (clamp_pos m1 e1), (clamp_pos m2 e2).
  change (number_of_int 1) with (S754_finite false 4503599627370496 (-52)).
  destruct (SFleb (S754_finite false 4503599627370496 (-52))
              (S754_finite false m1 e1)) eqn:H1;
    destruct (SFleb (S754_finite false 4503599627370496 (-52))
                (S754_finite false m2 e2)) eqn:H2; try done.
  - apply SFleb_pos_iff in H1, Hle.
    apply not_true_iff_false in H2. destruct H2. apply SFleb_pos_iff. lia.
  - apply SFleb_pos_iff. apply not_true_iff_false in H1.
    rewrite SFleb_pos_iff in H1. lia.
Qed.

Lemma clamp_nonneg (m : positive) (e : Z) :
  nonneg (clamp (S754_finite false m e)).
Proof. rewrite (clamp_pos m e). by case_match. Qed.

Lemma clamp_le_one (m : positive) (e : Z) :
  SFleb (clamp (S754_finite false m e)) (number_of_int 1) = true.
Proof.
  rewrite (clamp_pos m e).
  change (number_of_int 1) with (S754_finite false 4503599627370496 (-52)).
  destruct (SFleb (S754_finite false 4503599627370496 (-52))
              (S754_finite false m e)) eqn:H1; [done|].
  apply SFleb_pos_iff. apply not_true_iff_false in H1.
  rewrite SFleb_pos_iff in H1. lia.
Qed.

Lemma clamp_valid (x : number) : valid x → valid (clamp x).
Proof. intros Hv. unfold clamp. by repeat case_match. Qed.

Lemma clamp_mono (x y : number) :
  valid x → valid y → SFleb x y = true → SFleb (clamp x) (clamp y) = true.
Proof.
  intros Hx Hy. apply (lift_mono_gen clamp (λ _ _, True)).
  - apply clamp_opp.
  - by intros [].
  - intros [|[]| |[] m e] Hp _ _; try done. apply clamp_nonneg.
  - intros [|[]| |[] m1 e1] [|[]| |[] m2 e2] Hp1 Hp2 _ _ _ _ Hle; try done.
    + apply clamp_le_one.
    + by apply clamp_mono_pos.
  - done.
  - done.
  - by destruct x.
  - by destruct y.
Qed.

Lemma clamp_tanh_like : tanh_like clamp.
Proof.
  split.
  - done.
  - apply clamp_opp.
  - apply clamp_mono.
  - intros x Hv Hn. split; [by apply clamp_valid|].
    destruct x as [[]|[]| |[] m e]; try done.
    + change (S754_finite true m e) with (SFopp (S754_finite false m e)).
      rewrite clamp_opp. apply SFleb_opp_nonneg; [apply clamp_nonneg|done].
    + apply clamp_le_one.
  - done.
Qed.

(** The page that [index] serves holds the line that [angle] embeds. *)
Lemma page_holds_the_gauge_script :
  contains (lit "const angle = Math.tanh(data.counter / 500) * 90;") html
  = true.
Proof. by vm_compute. Qed.

(** C6. The needle angle [Math.tanh(data.counter / 500) * 90] as the browser
    computes it, on binary64 Numbers, for any [Math.tanh] that keeps [+0],
    is odd and monotone, stays below 1 and is 1 at 20: the angle is [+0]
    at counter 0; it is odd on the counters other than 0; it is monotone in
    the counter, but not strictly; it lies in the closed interval from -90
    to 90 and reaches both ends, being exactly 90 from counter 10000 on and
    exactly -90 from counter -10000 down. Whatever [Math.tanh] is, the
    counters [2 ^ 54] and [2 ^ 54 + 2] give the same angle. *)
Theorem angle_is_odd_monotone_and_saturates (tanh : number → number) :
  tanh_like tanh →
  angle tanh 0 = S754_zero false ∧
  (∀ n, n ≠ 0 → angle tanh (- n) = SFopp (angle tanh n)) ∧
  (∀ n1 n2, n1 ≤ n2 → SFleb (angle tanh n1) (angle tanh n2) = true) ∧
  (∀ n, SFleb (number_of_int (-90)) (angle tanh n) = true ∧
        SFleb (angle tanh n) (number_of_int 90) = true) ∧
  (∀ n, 10000 ≤ n → angle tanh n = number_of_int 90) ∧
  (∀ n, n ≤ -10000 → angle tanh n = number_of_int (-90)) ∧
  angle tanh (2 ^ 54) = angle tanh (2 ^ 54 + 2).
Proof.
  intros Htanh. split; [|split; [|split; [|split; [|split; [|split]]]]].
  - by apply angle_zero.
  - intros n Hn. by apply angle_odd.
  - intros n1 n2 Hle. by apply angle_mono.
  - intros n. by apply angle_bounds.
  - intros n Hn. by apply angle_saturates.
  - intros n Hn. replace n with (- - n) by lia.
    rewrite angle_odd by (done || lia).
    rewrite (angle_saturates tanh Htanh (- n)) by lia. done.
  - unfold angle. by rewrite number_of_int_plateau.
Qed.

Lemma angle_is_odd_monotone_and_saturates_witness :
  tanh_like clamp ∧
  angle clamp 250 = number_of_int 45 ∧
  angle clamp (-250) = SFopp (angle clamp 250) ∧
  SFleb (angle clamp 250) (angle clamp 252) = true ∧
  angle clamp 10000 = number_of_int 90.
Proof.
  split; [exact clamp_tanh_like|]. split; [reflexivity|].
  split; [|split].
  - apply (proj1 (proj2
      (angle_is_odd_monotone_and_saturates clamp clamp_tanh_like)) 250). lia.
  - apply (proj1 (proj2 (proj2
      (angle_is_odd_monotone_and_saturates clamp clamp_tanh_like)))). lia.
  - apply (proj1 (proj2 (proj2 (proj2 (proj2
      (angle_is_odd_monotone_and_saturates clamp clamp_tanh_like)))))). lia.
Defined.

(** The claim as the specification words it fails twice. No [Math.tanh]
    makes the angle strictly increasing: the counters [2 ^ 54] and
    [2 ^ 54 + 2], both reachable in steps of two, are the same Number and so
    give the same angle. And no [Math.tanh] with the properties above keeps
    the angle strictly below 90: at counter 10000 it is 90. *)
Lemma angle_is_not_strictly_monotone_or_bounded :
  (¬ ∃ tanh : number → number,
       SFltb (angle tanh (2 ^ 54)) (angle tanh (2 ^ 54 + 2)) = true) ∧
  (¬ ∃ tanh : number → number,
       tanh_like tanh ∧
       SFltb (angle tanh 10000) (number_of_int 90) = true).
Proof.
  split.
  - intros [tanh Hlt]. unfold angle in Hlt.
    rewrite number_of_int_plateau, SFltb_irrefl in Hlt. done.
  - intros [tanh [Htanh Hlt]].
    rewrite (angle_saturates tanh Htanh 10000), SFltb_irrefl in Hlt by lia.
    done.
Qed.

(** * Further properties of the module *)

(** ** Normalization and matching *)

Lemma lstrip_split (s : str) :
  ∃ a, s = a ++ lstrip s ∧ Forall (λ c, isspace c = true) a.
Proof.
  induction s as [|c s (a & Hs & Ha)]; simpl.
  - by exists [].
  - destruct (isspace c) eqn:Hc.
    + exists (c :: a). split; [by rewrite Hs at 1|by constructor].
    + by exists [].
Qed.

(** [lstrip] stops at the first code point that is no white space. *)
Lemma lstrip_app (a t : str) (x : N) :
  isspace x = false → lstrip (a ++ x :: t) = lstrip a ++ x :: t.
Proof.
  intros Hx. induction a as [|c a IH]; simpl.
  - by rewrite Hx.
  - by destruct (isspace c).
Qed.

(** [rstrip] stops at the last code point that is no white space. *)
Lemma rstrip_app (t b : str) (y : N) :
  isspace y = false → rstrip (t ++ y :: b) = t ++ y :: rstrip b.
Proof.
  intros Hy. unfold rstrip.
  rewrite reverse_app, reverse_cons, <- app_assoc. simpl.
  rewrite lstrip_app by done.
  rewrite reverse_app, reverse_cons, reverse_involutive, <- app_assoc.
  done.
Qed.

Lemma strip_split (s : str) : ∃ a b, s = a ++ strip s ++ b.
Proof.
  unfold strip, rstrip.
  destruct (lstrip_split s) as (a & Hs & _).
  destruct (lstrip_split (reverse (lstrip s))) as (b & Hr & _).
  exists a, (reverse b). rewrite <- reverse_app, <- Hr.
  by rewrite reverse_involutive.
Qed.

(** An occurrence of a pattern whose first and last code points are no
    white space survives [strip], and [strip] creates none. *)
Lemma substring_strip (x y : N) (q s : str) :
  isspace x = false → isspace y = false →
  substring (x :: q ++ [y]) (strip s) ↔ substring (x :: q ++ [y]) s.
Proof.
  intros Hx Hy. split.
  - intros (a & b & Hab). destruct (strip_split s) as (a' & b' & Hs).
    exists (a' ++ a), (b ++ b'). rewrite Hs, Hab.
    by rewrite <- !app_assoc.
  - intros (a & b & ->). exists (lstrip a), (rstrip b).
    unfold strip.
    change ((x :: q ++ [y]) ++ b) with (x :: (q ++ [y]) ++ b).
    rewrite lstrip_app by done.
    replace (lstrip a ++ x :: (q ++ [y]) ++ b)
      with ((lstrip a ++ x :: q) ++ y :: b)
      by (by rewrite <- !app_assoc).
    rewrite rstrip_app by done.
    rewrite <- !app_assoc. simpl. by rewrite <- !app_assoc.
Qed.

Lemma strip_ascii (s : str) : Forall is_ascii s → Forall is_ascii (strip s).
Proof.
  intros Hs. destruct (strip_split s) as (a & b & Heq).
  rewrite Heq in Hs. apply Forall_app in Hs as [_ Hs].
  by apply Forall_app in Hs as [Hs _].
Qed.

(** A mapping of code points that neither makes nor unmakes the code points
    of a pattern keeps the occurrences of the pattern. *)
Lemma startswith_fmap (f : N → N) (p s : str) :
  Forall (λ a, ∀ c, f c = a ↔ c = a) p →
  startswith p (f <$> s) = startswith p s.
Proof.
  intros Hp. revert s. induction Hp as [|a p Ha _ IH]; intros [|c s]; try done.
  simpl. rewrite IH. f_equal.
  destruct (N.eqb_spec a c) as [->|Hne].
  - apply N.eqb_eq. symmetry. by apply Ha.
  - apply N.eqb_neq. intros Heq. apply Hne. symmetry. by apply Ha.
Qed.

Lemma contains_fmap (f : N → N) (p s : str) :
  Forall (λ a, ∀ c, f c = a ↔ c = a) p →
  contains p (f <$> s) = contains p s.
Proof.
  intros Hp. induction s as [|c s IH]; [done|].
  rewrite fmap_cons. cbn [contains]. rewrite IH, <- fmap_cons.
  by rewrite (startswith_fmap f p (c :: s) Hp).
Qed.

Lemma ascii_lower_fixes (a : N) :
  (a < 65 ∨ 122 < a)%N → ∀ c, ascii_lower c = a ↔ c = a.
Proof.
  intros Ha c. unfold ascii_lower.
  destruct (65 <=? c)%N eqn:H1, (c <=? 90)%N eqn:H2; simpl;
    try apply N.leb_le in H1; try apply N.leb_le in H2;
    try apply N.leb_gt in H1; try apply N.leb_gt in H2; lia.
Qed.

Section Matching.
Context `{Runtime}.

Lemma contains_normalize (x y : N) (content : str) :
  lower_on_ascii → Forall is_ascii content →
  isspace x = false → isspace y = false →
  (x < 65 ∨ 122 < x)%N → (y < 65 ∨ 122 < y)%N →
  contains [x; y] (normalize content) = contains [x; y] content.
Proof.
  intros Hlower Hascii Hx Hy Hx' Hy'. unfold normalize.
  rewrite Hlower by by apply strip_ascii.
  rewrite contains_fmap
    by (repeat constructor; by apply ascii_lower_fixes).
  pose proof (substring_strip x y [] content Hx Hy) as Hstrip.
  simpl in Hstrip. rewrite <- !contains_spec in Hstrip.
  destruct (contains [x; y] (strip content)),
    (contains [x; y] content); try done.
  - symmetry. by apply Hstrip.
  - by apply Hstrip.
Qed.

(** X4. For a message of ASCII text, strip and lower never change the
    outcome: the handler adds 2 when the text as it was sent has "+2" in it,
    else subtracts 2 when it has "-2" in it, else changes nothing. *)
Theorem matching_ignores_padding_and_case (content : str) (w : World) :
  lower_on_ascii → Forall is_ascii content →
  event_message content w =
    if contains (lit "+2") content then {| counter := counter w + 2 |}
    else if contains (lit "-2") content then {| counter := counter w - 2 |}
    else w.
Proof.
  intros Hlower Hascii. unfold event_message; cbv zeta.
  change (lit "+2") with [43; 50]%N. change (lit "-2") with [45; 50]%N.
  rewrite !contains_normalize by (done || lia). reflexivity.
Qed.

(** X5. Matching is by substring, not by token: an ASCII message with "+2"
    anywhere in it, alone or inside a longer word or number, and however
    often, adds exactly 2. *)
Theorem embedded_plus_two_matches (before after : str) (w : World) :
  lower_on_ascii → Forall is_ascii before → Forall is_ascii after →
  event_message (before ++ lit "+2" ++ after) w
  = {| counter := counter w + 2 |}.
Proof.
  intros Hlower Hb Ha. unfold event_message; cbv zeta.
  change (lit "+2") with [43; 50]%N.
  rewrite contains_normalize; try done; try lia.
  - assert (contains [43; 50]%N (before ++ [43; 50]%N ++ after) = true) as ->;
      [|done].
    apply contains_spec. by exists before, after.
  - apply Forall_app. split; [done|]. apply Forall_app. split; [|done].
    vm_compute. repeat constructor.
Qed.

End Matching.

Lemma matching_ignores_padding_and_case_witness :
  @event_message ascii_runtime (lit "  I Vote -2  ") {| counter := 10 |}
  = {| counter := 10 - 2 |}.
Proof.
  apply (@matching_ignores_padding_and_case ascii_runtime
           (lit "  I Vote -2  ") {| counter := 10 |} ascii_runtime_lower).
  vm_compute. repeat constructor.
Defined.

Lemma embedded_plus_two_matches_witness :
  @event_message ascii_runtime (lit "that was 1+200 or so") boot
  = {| counter := 0 + 2 |}.
Proof.
  apply (@embedded_plus_two_matches ascii_runtime
           (lit "that was 1") (lit "00 or so") boot ascii_runtime_lower);
    vm_compute; repeat constructor.
Defined.

(** ** The counter as a function of the chat *)

Lemma sum_of_Permutation (l l' : list Z) : l ≡ₚ l' → sum_of l = sum_of l'.
Proof. unfold sum_of. induction 1; simpl; lia. Qed.

Section ChatAlgebra.
Context `{Runtime}.

(** What a message adds does not depend on the counter. *)
Lemma event_message_shift (msg : str) (w : World) :
  event_message msg w
  = {| counter := counter w + counter (event_message msg boot) |}.
Proof.
  destruct (applied_delta_total msg) as [d Hd].
  rewrite (event_message_applies msg d w Hd).
  by rewrite (event_message_applies msg d boot Hd).
Qed.

Lemma event_message_step (msg : str) :
  counter (event_message msg boot) ∈ [2; -2; 0].
Proof.
  destruct (applied_delta_total msg) as [d Hd].
  rewrite (event_message_applies msg d boot Hd). simpl.
  destruct Hd; set_solver.
Qed.

Lemma chat_counter (msgs : list str) (w : World) :
  chat msgs w = {| counter := counter w +
    sum_of ((λ m, counter (event_message m boot)) <$> msgs) |}.
Proof.
  unfold chat. revert w. induction msgs as [|m msgs IH]; intros w.
  - destruct w; simpl. f_equal. lia.
  - cbn [foldl]. rewrite IH, (event_message_shift m w), fmap_cons.
    cbn [counter]. unfold sum_of. cbn [foldr]. f_equal. lia.
Qed.

(** X6. The order of the messages does not matter: handling the same
    messages in another order leaves the same counter. *)
Theorem chat_order_is_irrelevant (msgs msgs' : list str) (w : World) :
  msgs ≡ₚ msgs' → chat msgs w = chat msgs' w.
Proof.
  intros Hperm. rewrite !chat_counter. f_equal. f_equal.
  apply sum_of_Permutation. by apply fmap_Permutation.
Qed.

(** X7. A message moves the counter by at most 2: after [n] messages the
    counter is within [2 * n] of where it was. *)
Theorem chat_moves_counter_by_at_most_two_each (msgs : list str) (w : World) :
  Z.abs (counter (chat msgs w) - counter w) ≤ 2 * Z.of_nat (length msgs).
Proof.
  rewrite chat_counter. cbn [counter].
  assert (Z.abs (sum_of ((λ m, counter (event_message m boot)) <$> msgs))
          ≤ 2 * Z.of_nat (length msgs)) as Hsum; [|lia].
  induction msgs as [|m msgs IH]; [done|].
  rewrite fmap_cons, length_cons, Nat2Z.inj_succ.
  unfold sum_of in *. cbn [foldr].
  pose proof (event_message_step m) as Hstep.
  rewrite !elem_of_cons in Hstep. rewrite elem_of_nil in Hstep.
  lia.
Qed.

(** X8. Handling two batches of messages one after the other is handling
    their concatenation, and the counter the chat starts from only shifts
    the result. *)
Theorem chat_composes (msgs1 msgs2 : list str) (w : World) :
  chat (msgs1 ++ msgs2) w = chat msgs2 (chat msgs1 w) ∧
  counter (chat msgs1 w) = counter w + counter (chat msgs1 boot).
Proof.
  split.
  - unfold chat. by rewrite foldl_app.
  - rewrite !chat_counter. simpl. lia.
Qed.

End ChatAlgebra.

Lemma chat_order_is_irrelevant_witness :
  @chat ascii_runtime [lit "+2"; lit "nope"; lit "-2 -2"] boot
  = @chat ascii_runtime [lit "-2 -2"; lit "+2"; lit "nope"] boot.
Proof.
  apply (@chat_order_is_irrelevant ascii_runtime).
  by rewrite (Permutation_cons_append [lit "+2"; lit "nope"] (lit "-2 -2")).
Defined.

(** ** The process: who writes the counter *)

Section ProcessFacts.
Context `{Runtime}.

Lemma world_handle (p : Process) (e : event) :
  world (handle p e) =
  match e with
  | ChatMessage content => event_message content (world p)
  | ResetRequest => boot
  | SubscriberRuns => world p
  end.
Proof.
  destruct e; try done. simpl. by destruct (advance _ _).
Qed.

(** The counter after a run depends on the counter before it only. *)
Lemma world_run (es : list event) (p q : Process) :
  world p = world q → world (run es p) = world (run es q).
Proof.
  unfold run. revert p q. induction es as [|e es IH]; intros p q Hpq; [done|].
  cbn [foldl]. apply IH. by rewrite !world_handle, Hpq.
Qed.

(** X10. A reset forgets the past: the counter after a run is the counter
    of a fresh process after the events that follow the last reset. *)
Theorem reset_forgets_history (es1 es2 : list event) (p : Process) :
  world (run (es1 ++ ResetRequest :: es2) p) = world (run es2 (connect boot)).
Proof.
  unfold run. rewrite foldl_app. cbn [foldl]. by apply world_run.
Qed.

(** The four steps a subscriber can take. *)
Lemma step_line41_same (w : World) (s : list str) :
  handle {| world := w; sent := s;
            subscriber := {| pc := Line41; last_value := Some (counter w) |} |}
         SubscriberRuns
  = {| world := w; sent := s;
       subscriber := {| pc := Line41; last_value := Some (counter w) |} |}.
Proof.
  unfold handle, advance. cbn [world subscriber pc last_value sent].
  rewrite bool_decide_not, bool_decide_eq_true_2 by done.
  cbn [negb option_list]. by rewrite app_nil_r.
Qed.

Lemma step_line41_new (w : World) (lv : option Z) (s : list str) :
  lv ≠ Some (counter w) →
  handle {| world := w; sent := s;
            subscriber := {| pc := Line41; last_value := lv |} |}
         SubscriberRuns
  = {| world := w; sent := s;
       subscriber := {| pc := Line42; last_value := lv |} |}.
Proof.
  intros Hne. unfold handle, advance.
  cbn [world subscriber pc last_value sent].
  rewrite bool_decide_eq_true_2 by naive_solver.
  cbn [option_list]. by rewrite app_nil_r.
Qed.

Lemma step_line42 (w : World) (lv : option Z) (s : list str) :
  handle {| world := w; sent := s;
            subscriber := {| pc := Line42; last_value := lv |} |}
         SubscriberRuns
  = {| world := w; sent := s ++ [frame (counter w)];
       subscriber := {| pc := Line44; last_value := lv |} |}.
Proof. reflexivity. Qed.

Lemma step_line44 (w : World) (lv : option Z) (s : list str) :
  handle {| world := w; sent := s;
            subscriber := {| pc := Line44; last_value := lv |} |}
         SubscriberRuns
  = {| world := w; sent := s;
       subscriber := {| pc := Line41; last_value := Some (counter w) |} |}.
Proof.
  unfold handle, advance. cbn [world subscriber pc last_value sent].
  cbn [option_list]. by rewrite app_nil_r.
Qed.

(** X11. Left alone for three steps, a subscriber settles: it waits at line
    41 with [last_value] equal to the counter, which it has not changed. It
    was sent the frame of the counter on the way unless it already had
    that value (at line 41) or was suspended at its [yield] (before line
    44), and no other frame. *)
Theorem quiet_subscriber_settles (p : Process) :
  let c := counter (world p) in
  let p' := run [SubscriberRuns; SubscriberRuns; SubscriberRuns] p in
  world p' = world p ∧
  subscriber p' = {| pc := Line41; last_value := Some c |} ∧
  sent p' = sent p ++
    match pc (subscriber p) with
    | Line41 =>
        if bool_decide (last_value (subscriber p) = Some c) then []
        else [frame c]
    | Line42 => [frame c]
    | Line44 => []
    end.
Proof.
  destruct p as [w [l lv] s]. cbv zeta. unfold run.
  cbn [foldl world subscriber pc last_value sent].
  destruct l.
  - destruct (decide (lv = Some (counter w))) as [->|Hne].
    + rewrite bool_decide_eq_true_2, !step_line41_same, app_nil_r by done.
      done.
    + rewrite bool_decide_eq_false_2 by done.
      by rewrite step_line41_new, step_line42, step_line44.
  - by rewrite step_line42, step_line44, step_line41_same.
  - by rewrite step_line44, !step_line41_same, app_nil_r.
Qed.

Lemma sent_handle (p : Process) (e : event) (f : str) :
  f ∈ sent (handle p e) → f ∈ sent p ∨ f = frame (counter (world p)).
Proof.
  destruct e; simpl; auto.
  destruct p as [w [[] lv] s]; unfold advance; simpl.
  - case_bool_decide; simpl; rewrite app_nil_r; auto.
  - rewrite elem_of_app, list_elem_of_singleton. auto.
  - rewrite app_nil_r. auto.
Qed.

Lemma sent_run (es : list event) (p : Process) (f : str) :
  f ∈ sent (run es p) →
  f ∈ sent p ∨ ∃ k, f = frame (counter (world (run (take k es) p))).
Proof.
  revert p. induction es as [|e es IH]; intros p; [by left|].
  change (run (e :: es) p) with (run es (handle p e)).
  intros [Hin|[k ->]]%IH.
  - apply sent_handle in Hin as [Hin| ->]; [by left|].
    right. by exists 0%nat.
  - right. by exists (S k).
Qed.

(** X12. A subscriber is never sent a value the counter did not have: each
    frame it was sent, however its steps were interleaved with chat messages
    and resets, is the frame of the counter at some point of the run. *)
Theorem frames_are_counter_values (es : list event) (w : World) :
  Forall (λ f, ∃ k, f = frame (counter (world (run (take k es) (connect w)))))
         (sent (run es (connect w))).
Proof.
  apply Forall_forall. intros f Hf.
  apply sent_run in Hf as [Hin|Hk]; [|done].
  by apply elem_of_nil in Hin.
Qed.

(** ** The routes *)

Lemma serves_spec (r : Rule) (method path : str) :
  serves r method path = true →
  rule r = path ∧
  (method ∈ methods r ∨ (method = lit "HEAD" ∧ lit "GET" ∈ methods r)).
Proof.
  unfold serves. rewrite andb_true_iff, orb_true_iff, andb_true_iff.
  rewrite !bool_decide_eq_true. tauto.
Qed.

(** The requests for which Flask calls a view of the module. *)
Lemma match_request_spec (method path : str) (v : view) :
  match_request url_map method path = Some v →
  match v with
  | ViewStream => path = lit "/stream" ∧ (method = lit "GET" ∨ method = lit "HEAD")
  | ViewIndex => path = lit "/" ∧ (method = lit "GET" ∨ method = lit "HEAD")
  | ViewResetCounter => path = lit "/reset" ∧ method = lit "POST"
  | ViewShutdown => path = lit "/shutdown" ∧ method = lit "POST"
  end.
Proof.
  unfold url_map. cbn [match_request].
  repeat (destruct (serves _ method path) eqn:Hs;
    [apply serves_spec in Hs as [<- Hm]; cbn [methods endpoint] in *;
     intros [= <-]; split; [done|];
     rewrite !list_elem_of_singleton in Hm;
     try (destruct Hm as [Hm|[? [=]]]; done); tauto|clear Hs]).
  done.
Qed.

(** X13. Over HTTP the counter is written by POST /reset alone: a request
    with any other method or path, whatever Flask makes of it, leaves the
    counter as it was. *)
Theorem only_post_reset_writes_counter (method path : str) (w w' : World) :
  world_after (dispatch_request method path w) w = Some w' → w' ≠ w →
  method = lit "POST" ∧ path = lit "/reset".
Proof.
  unfold dispatch_request.
  destruct (match_request url_map method path) as [v|] eqn:Hv.
  - apply match_request_spec in Hv. destruct v; simpl; intros Hw Hne;
      first [ by destruct Hv
            | discriminate Hw
            | injection Hw as <-; by destruct Hne ].
  - simpl. intros [= <-] Hne. by destruct Hne.
Qed.

(** X14. The process is ended by POST /shutdown alone, and then with exit
    status 0 and no response: no other request ends it. *)
Theorem only_post_shutdown_exits (method path : str) (w : World) (code : Z) :
  dispatch_request method path w = Exited code ↔
  method = lit "POST" ∧ path = lit "/shutdown" ∧ code = 0.
Proof.
  unfold dispatch_request. split.
  - destruct (match_request url_map method path) as [v|] eqn:Hv; [|done].
    apply match_request_spec in Hv.
    destruct v; simpl; try done. unfold shutdown.
    intros [= <-]. by destruct Hv as [-> ->].
  - by intros (-> & -> & ->).
Qed.

End ProcessFacts.

Lemma only_post_reset_writes_counter_witness :
  lit "POST" = lit "POST" ∧ lit "/reset" = lit "/reset".
Proof.
  apply (@only_post_reset_writes_counter ascii_runtime
           (lit "POST") (lit "/reset") {| counter := 4 |} boot).
  - reflexivity.
  - discriminate.
Defined.

(** ** Start-up, continued *)

Section StartupFacts.
Context `{Runtime}.

(** X15. Start-up succeeds exactly when the channel and the token are set
    and not empty and [int] accepts the port text (PORT, or "8080" when PORT
    is not set); the settings are then those values. *)
Theorem startup_succeeds_iff
    (os_environ dotenv : gmap string str) (cfg : Settings) :
  let environ := environment os_environ dotenv in
  startup os_environ dotenv = inr cfg ↔
  environ !! "TWITCH_CHANNEL" = Some (TWITCH_CHANNEL cfg) ∧
  TWITCH_CHANNEL cfg ≠ [] ∧
  environ !! "TWITCH_TOKEN" = Some (TWITCH_TOKEN cfg) ∧
  TWITCH_TOKEN cfg ≠ [] ∧
  py_int (default (lit "8080") (environ !! "PORT")) = inr (PORT cfg).
Proof.
  intros environ. unfold startup. fold environ.
  destruct (py_int _) as [e|port].
  { split; [done|]. by intros (_ & _ & _ & _ & ?). }
  split.
  - destruct (environ !! "TWITCH_CHANNEL") as [[|c channel]|]; try done.
    destruct (environ !! "TWITCH_TOKEN") as [[|k token]|]; try done.
    simpl. by intros [= <-].
  - intros (-> & Hc & -> & Ht & [= ->]).
    destruct cfg as [[|c channel] [|k token] port]; try done.
Qed.

End StartupFacts.

(** ** The frames of the stream *)

(** Closed lists of printable code points, by evaluation. *)
Ltac printable_closed :=
  vm_compute;
  repeat first [ apply Forall_nil_2
               | apply Forall_cons_2; [split; [discriminate|reflexivity]|] ].

Lemma lit_String (a : ascii) (s : string) :
  lit (String a s) = N_of_ascii a :: lit s.
Proof. reflexivity. Qed.

Lemma pretty_N_char_printable (x : N) :
  printable (N_of_ascii (pretty_N_char x)).
Proof.
  unfold pretty_N_char. repeat case_match; split; by vm_compute.
Qed.

Lemma pretty_N_go_printable (x : N) (s : string) :
  Forall printable (lit s) → Forall printable (lit (pretty_N_go x s)).
Proof.
  revert s. induction (N.lt_wf_0 x) as [x _ IH]; intros s Hs.
  destruct (decide (x = 0%N)) as [->|Hx].
  - by rewrite pretty_N_go_0.
  - rewrite pretty_N_go_step by lia. apply IH.
    + apply N.div_lt; lia.
    + rewrite lit_String. constructor; [|done].
      apply pretty_N_char_printable.
Qed.

Lemma str_of_int_printable (n : Z) : Forall printable (str_of_int n).
Proof.
  unfold str_of_int, pretty, pretty_Z.
  assert (∀ p : positive, Forall printable (lit (pretty p))) as Hpos.
  { intros p. unfold pretty, pretty_positive, pretty, pretty_N.
    case_decide; [done|]. apply pretty_N_go_printable. constructor. }
  destruct n as [|p|p].
  - printable_closed.
  - apply Hpos.
  - change (lit ("-" +:+ pretty p)) with (45%N :: lit (pretty p)).
    constructor; [split; by vm_compute|apply Hpos].
Qed.

(** X18. Every frame is one event of the stream: a single line of printable
    ASCII, so with no line end inside, followed by the two line feeds that
    end the event. *)
Theorem frame_is_one_event (n : Z) :
  ∃ line, frame n = line ++ newline ++ newline ∧ Forall printable line.
Proof.
  exists (lit "data: " ++ json_dumps_counter n). split.
  - unfold frame. by rewrite <- !app_assoc.
  - unfold json_dumps_counter. repeat apply Forall_app_2;
      first [ apply str_of_int_printable | printable_closed ].
Qed.
